(** * runsge: a qsub wrapper that tracks SGE jobs through their output files

    Shallow embedding of [runsge.py] (classes [JobStatus], [Job] and
    [Submitter]) and the properties of its job lifecycle tracker.

    The tracker object and the operating system it talks to are threaded
    through a state-and-exception monad: a Python exception leaves every
    mutation made before it in place, so a raised outcome carries the state
    too.  The file system is a finite map from paths to the bytes of regular
    files, and every call into the operating system is recorded in a trace,
    so that "performs no file access" and "deletes no file" are statements
    about the trace.

    What the model leaves to its parameters: the submission command is a
    function from the argument vector and the world to what [Popen] gives;
    the cluster is a function that rewrites the files while the tracker
    sleeps, and in the lifecycle properties it may rewrite them at any
    moment; the encoding of the locale is a function from the bytes of a
    file to the text they stand for, if any.  A call on an existing file
    fails only when its bytes are no text in that encoding.  [int] and
    text-mode reading behave as the interpreter's defaults have them.
    [wait] has no bound in the source; here it takes the number of cycles
    it may run. *)

From Stdlib Require Import ZArith Lia Ascii.
From stdpp Require Import base option list gmap strings pretty.

Local Open Scope Z_scope.

(** ** Python built-ins used by the module *)

Module Py.

(** [s.startswith(sub)], the test [find] performs at each offset. *)
Fixpoint startswith (sub s : string) : bool :=
  match sub, s with
  | EmptyString, _ => true
  | String a sub', String b s' =>
      if decide (a = b) then startswith sub' s' else false
  | String _ _, EmptyString => false
  end.

(** The scan of [bytes.find]: [i] is the offset of [s] in the whole text. *)
Fixpoint find_from (sub s : string) (i : Z) : Z :=
  if startswith sub s then i
  else match s with
       | EmptyString => -1
       | String _ s' => find_from sub s' (i + 1)
       end.

(** [s.find(sub)]: the lowest index at which [sub] occurs in [s], or -1. *)
Definition find (s sub : string) : Z := find_from sub s 0.

(** [len(s)]. *)
Definition len (s : string) : Z := Z.of_nat (String.length s).

(** A slice bound as Python normalises it: a negative bound counts from
    the end, and every bound is clamped to [0 .. len]. *)
Definition clamp (n i : Z) : Z :=
  if i <? 0 then Z.max (i + n) 0 else Z.min i n.

(** [s[lo:hi]]; [None] is an omitted bound. *)
Definition slice (s : string) (lo hi : option Z) : string :=
  let n := len s in
  let l := clamp n (default 0 lo) in
  let h := clamp n (default n hi) in
  String.substring (Z.to_nat l) (Z.to_nat (h - l)) s.

(** The value of a decimal digit character. *)
Definition digit (c : ascii) : option Z := Z.of_nat <$> Ascii.is_nat c.

Fixpoint all_space (s : string) : bool :=
  match s with
  | EmptyString => true
  | String c s' => Ascii.is_space c && all_space s'
  end.

(** The digits of an [int] literal once its first digit has been read:
    digits, each optionally preceded by one underscore, then white space
    up to the end. *)
Fixpoint int_digits (acc : Z) (s : string) : option Z :=
  match s with
  | EmptyString => Some acc
  | String c s' =>
      match digit c with
      | Some d => int_digits (10 * acc + d) s'
      | None =>
          if decide (c = "_"%char) then
            match s' with
            | String c' s'' =>
                match digit c' with
                | Some d => int_digits (10 * acc + d) s''
                | None => None
                end
            | EmptyString => None
            end
          else if all_space s then Some acc else None
      end
  end.

(** The most digits [int] converts from a decimal literal, as the
    interpreter sets it by default
    ([sys.int_info.default_max_str_digits]); a literal with more raises
    [ValueError]. *)
Definition max_str_digits : nat := 4300.

(** The digits of a literal: underscores and white space do not count,
    leading zeros do. *)
Fixpoint count_digits (s : string) : nat :=
  match s with
  | EmptyString => O
  | String c s' =>
      (match digit c with Some _ => 1 | None => 0 end + count_digits s')%nat
  end.

(** An unsigned literal: at least one digit, and no more digits than the
    limit. *)
Definition int_unsigned (s : string) : option Z :=
  match s with
  | String c s' =>
      match digit c with
      | Some d =>
          match int_digits d s' with
          | Some n =>
              if decide (count_digits s ≤ max_str_digits)%nat then Some n
              else None
          | None => None
          end
      | None => None
      end
  | EmptyString => None
  end.

Fixpoint lstrip (s : string) : string :=
  match s with
  | String c s' => if Ascii.is_space c then lstrip s' else s
  | EmptyString => s
  end.

(** [int(b)] for a bytes object [b], base 10: optional white space, an
    optional sign, digits (single underscores allowed between them, and at
    most [max_str_digits] of them), optional white space.  [None] stands
    for [ValueError]. *)
Definition int (s : string) : option Z :=
  match lstrip s with
  | String "+" s' => int_unsigned s'
  | String "-" s' => Z.opp <$> int_unsigned s'
  | s' => int_unsigned s'
  end.

(** Universal newlines, as a file opened with [open(path, 'r')] reads its
    text: CR LF and a lone CR are both read as LF. *)
Fixpoint universal_newlines (s : string) : string :=
  match s with
  | EmptyString => EmptyString
  | String c s' =>
      if decide (c = "013"%char) then
        String "010"
          match s' with
          | String c' s'' =>
              if decide (c' = "010"%char) then universal_newlines s''
              else universal_newlines s'
          | EmptyString => EmptyString
          end
      else String c (universal_newlines s')
  end.

(** A text ([str]) is written as a string as well, by its UTF-8 code
    units: the tracker appends texts and prints them and does nothing else
    with them, and both read the same on code units. *)

(** [bytes.decode('ascii')]: every byte below 128 is the character of
    that code; any other byte is an error ([None]). *)
Fixpoint decode_ascii (bytes : string) : option string :=
  match bytes with
  | EmptyString => Some EmptyString
  | String c bytes' =>
      if decide (nat_of_ascii c < 128)%nat
      then String c <$> decode_ascii bytes'
      else None
  end.

(** The byte [c] lies between [lo] and [hi]. *)
Definition between (lo hi : nat) (c : ascii) : bool :=
  bool_decide (lo ≤ nat_of_ascii c ≤ hi)%nat.

(** A continuation byte of UTF-8. *)
Definition continuation (c : ascii) : bool := between 128 191 c.

(** The second byte of a sequence of three or four, which the first byte
    [a] narrows so that no character is written longer than it need be,
    none is a surrogate and none lies beyond U+10FFFF. *)
Definition second_byte (a b : ascii) : bool :=
  if decide (a = "224"%char) then between 160 191 b
  else if decide (a = "237"%char) then between 128 159 b
  else if decide (a = "240"%char) then between 144 191 b
  else if decide (a = "244"%char) then between 128 143 b
  else continuation b.

(** Well-formed UTF-8: sequences of one byte (0 to 127), two (first byte
    194 to 223), three (224 to 239) and four (240 to 244). *)
Fixpoint valid_utf8 (bytes : string) : bool :=
  match bytes with
  | EmptyString => true
  | String a s1 =>
      if between 0 127 a then valid_utf8 s1
      else
        match s1 with
        | EmptyString => false
        | String b s2 =>
            if between 194 223 a then continuation b && valid_utf8 s2
            else
              match s2 with
              | EmptyString => false
              | String c s3 =>
                  if between 224 239 a then
                    second_byte a b && continuation c && valid_utf8 s3
                  else
                    match s3 with
                    | EmptyString => false
                    | String d s4 =>
                        between 240 244 a && second_byte a b
                        && continuation c && continuation d && valid_utf8 s4
                    end
              end
        end
  end.

(** [bytes.decode('utf-8')]: well-formed bytes are the text they encode;
    any others are an error ([None]). *)
Definition decode_utf8 (bytes : string) : option string :=
  if valid_utf8 bytes then Some bytes else None.

(** [str(n)] for an integer. *)
Definition str_nat (n : nat) : string := pretty n.
Definition str (z : Z) : string := pretty z.

End Py.

(** ** Data model *)

(** [class JobStatus(Enum)]. *)
Inductive JobStatus : Set :=
| FAILED     (* submission failed *)
| RUNNING    (* queued or running *)
| FINISHED   (* finished, the output can be read *)
| ERROR.     (* finished but with an error in stderr *)

Global Instance JobStatus_eq_dec : EqDecision JobStatus.
Proof. solve_decision. Defined.

(** [class Job]: the attributes [__init__] sets. *)
Record Job : Set := mkJob {
  index : nat;
  job_id : Z;
  sge_script : string;
  output_file : string;
  error_file : string;
  status : JobStatus;
  output_string : string
}.

(** [Job.__init__(self, index, sge_script, job_id, output_file, error_file)]. *)
Definition Job_init (index : nat) (sge_script : string) (job_id : Z)
    (output_file error_file : string) : Job :=
  {| index := index;
     job_id := job_id;
     sge_script := sge_script;
     output_file := output_file;
     error_file := error_file;
     status := if decide (job_id = -1) then FAILED else RUNNING;
     output_string := "" |}.

Definition set_status (s : JobStatus) (j : Job) : Job :=
  {| index := index j; job_id := job_id j; sge_script := sge_script j;
     output_file := output_file j; error_file := error_file j;
     status := s; output_string := output_string j |}.

(** [job.output_string += text]. *)
Definition add_output (text : string) (j : Job) : Job :=
  {| index := index j; job_id := job_id j; sge_script := sge_script j;
     output_file := output_file j; error_file := error_file j;
     status := status j; output_string := output_string j +:+ text |}.

(** [class Submitter]: the attributes [__init__] sets. *)
Record Submitter : Set := mkSubmitter {
  jobs : list Job;
  current_index : nat
}.

(** [Submitter.__init__]. *)
Definition Submitter_init : Submitter := {| jobs := []; current_index := 0 |}.

(** ** The operating system *)

(** What the tracker asks of the operating system, in the order asked. *)
Inductive event : Set :=
| EvSpawn (argv : list string)   (* Popen(argv).communicate() *)
| EvIsFile (path : string)       (* os.path.isfile *)
| EvSync                         (* os.sync *)
| EvStat (path : string)         (* os.stat *)
| EvRead (path : string)         (* open(path, 'r').read() *)
| EvRemove (path : string)       (* os.remove *)
| EvPrint (line : string)        (* print *)
| EvSleep (seconds : Z).         (* time.sleep *)

(** Regular files by path, each with the bytes it holds, and the trace of
    calls made so far. *)
Record World : Type := mkWorld {
  files : gmap string string;
  trace : list event
}.

(** What running the submission command gives: the process could not be
    started, or it ran and wrote [stdout_data] to its standard output. *)
Inductive popen_result : Set :=
| SpawnFailed
| Completed (stdout_data : string).

(** The exceptions that can leave the tracker's methods. *)
Inductive exn : Set :=
| OSError                    (* FileNotFoundError and its kin *)
| ValueError                 (* int() of a malformed literal *)
| NameError (name : string)  (* a name bound in no scope *)
| IndexError                 (* self.jobs[i] out of range *)
| UnicodeDecodeError.        (* bytes that are no text in the encoding *)

(** ** State and exceptions *)

Record State : Type := mkState {
  self : Submitter;
  os : World
}.

Inductive outcome (A : Type) : Type :=
| Returned (a : A) (st : State)
| Raised (e : exn) (st : State).
Arguments Returned {A} a st.
Arguments Raised {A} e st.

Definition state_of {A} (o : outcome A) : State :=
  match o with Returned _ st | Raised _ st => st end.

Definition M (A : Type) : Type := State → outcome A.

Definition ret {A} (a : A) : M A := λ st, Returned a st.

Definition bind {A B} (c : M A) (k : A → M B) : M B :=
  λ st, match c st with
        | Returned a st' => k a st'
        | Raised e st' => Raised e st'
        end.

Definition raise {A} (e : exn) : M A := λ st, Raised e st.

Notation "x <- c1 ;; c2" := (bind c1 (λ x, c2))
  (at level 100, c1 at next level, right associativity).
Notation "c1 ;; c2" := (bind c1 (λ _, c2))
  (at level 100, right associativity).

Definition get_self : M Submitter := λ st, Returned (self st) st.
Definition put_self (s : Submitter) : M unit :=
  λ st, Returned tt {| self := s; os := os st |}.
Definition get_os : M World := λ st, Returned (os st) st.
Definition put_os (w : World) : M unit :=
  λ st, Returned tt {| self := self st; os := w |}.

(** Record one call in the trace. *)
Definition log (e : event) : M unit :=
  w <- get_os ;;
  put_os {| files := files w; trace := trace w ++ [e] |}.

(** ** Calls into the operating system *)

(** [os.path.isfile(path)]. *)
Definition os_path_isfile (path : string) : M bool :=
  log (EvIsFile path) ;;
  w <- get_os ;;
  ret (bool_decide (is_Some (files w !! path))).

(** [os.sync()]: no file appears, disappears or changes. *)
Definition os_sync : M unit := log EvSync.

(** [os.stat(path).st_size]. *)
Definition os_stat_st_size (path : string) : M Z :=
  log (EvStat path) ;;
  w <- get_os ;;
  match files w !! path with
  | Some bytes => ret (Py.len bytes)
  | None => raise OSError
  end.

(** The encoding of the locale, in which [open(path, 'r')] decodes the
    bytes of a file: the text a sequence of bytes stands for, or [None]
    when it stands for none.  Which encoding it is depends on where the
    tracker runs, so the tracker's methods take it as a parameter. *)
Class Locale := locale_decode : string → option string.

(** Two locales: UTF-8, and plain ASCII. *)
Definition utf8_locale : Locale := Py.decode_utf8.
Definition ascii_locale : Locale := Py.decode_ascii.

(** What [read()] makes of the bytes of a file opened in text mode: the
    bytes decoded in the locale's encoding, line ends read as LF.  [None]
    stands for [UnicodeDecodeError]. *)
Definition text_mode_read {L : Locale} (bytes : string) : option string :=
  Py.universal_newlines <$> locale_decode bytes.

(** [open(path, 'r').read()]. *)
Definition open_read {L : Locale} (path : string) : M string :=
  log (EvRead path) ;;
  w <- get_os ;;
  match files w !! path with
  | Some bytes =>
      match text_mode_read bytes with
      | Some text => ret text
      | None => raise UnicodeDecodeError
      end
  | None => raise OSError
  end.

(** [os.remove(path)]. *)
Definition os_remove (path : string) : M unit :=
  log (EvRemove path) ;;
  w <- get_os ;;
  match files w !! path with
  | Some _ => put_os {| files := delete path (files w); trace := trace w |}
  | None => raise OSError
  end.

(** [print(line)]. *)
Definition print (line : string) : M unit := log (EvPrint line).

(** ** class Submitter *)

(** [self.jobs[i]]: the job object itself, or [IndexError]. *)
Definition jobs_at (i : nat) : M Job :=
  s <- get_self ;;
  match jobs s !! i with
  | Some job => ret job
  | None => raise IndexError
  end.

(** An assignment to an attribute of the job object [self.jobs[i]] refers
    to: the object is shared with the list, so the list sees the change. *)
Definition update_job (i : nat) (f : Job → Job) : M unit :=
  s <- get_self ;;
  match jobs s !! i with
  | Some job =>
      put_self {| jobs := <[i := f job]> (jobs s);
                  current_index := current_index s |}
  | None => raise IndexError
  end.

(** Reading a name that no scope binds.  The module binds [os], [time],
    [Popen], [PIPE], [Enum], [JobStatus], [Job] and [Submitter] (and
    [submitter] and [i] when run as a script); the looked-up object would
    be a job, given here by its place in [self.jobs]. *)
Definition unbound_name (name : string) : M nat := raise (NameError name).

Section Tracker.

(** The locale the tracker runs in. *)
Context {L : Locale}.

(** The submission command: what [Popen(argv, ...).communicate()] gives
    for an argument vector, in the world as it is. *)
Variable qsub : list string → World → popen_result.

(** What the cluster does to the files while the tracker sleeps. *)
Variable cluster : World → gmap string string.

(** [p = Popen(argv, stdout=PIPE, stdin=PIPE, stderr=PIPE)] followed by
    [stdout_data, stderr_data = p.communicate()]. *)
Definition Popen_communicate (argv : list string) : M string :=
  log (EvSpawn argv) ;;
  w <- get_os ;;
  match qsub argv w with
  | SpawnFailed => raise OSError
  | Completed stdout_data => ret stdout_data
  end.

(** [time.sleep(seconds)]. *)
Definition time_sleep (seconds : Z) : M unit :=
  log (EvSleep seconds) ;;
  w <- get_os ;;
  put_os {| files := cluster w; trace := trace w |}.

(** [Submitter.__submit_sge_script(self, name, output, error)]. *)
Definition submit_sge_script (name output error : string) : M Z :=
  stdout_data <- Popen_communicate ["qsub"; "-o"; output; "-e"; error; name] ;;
  (* Look for the job id in the output *)
  let first := Py.find stdout_data "Your job " in
  if decide (first = -1) then ret (-1)
  else
    let first := first + Py.len "Your job " in
    let last := Py.find (Py.slice stdout_data (Some first) None) " " + first in
    match Py.int (Py.slice stdout_data (Some first) (Some last)) with
    | Some job_id => ret job_id
    | None => raise ValueError
    end.

(** [Submitter.submit(self, name)]. *)
Definition submit (name : string) : M Job :=
  s <- get_self ;;
  let index := current_index s in
  let output_file := "output_" +:+ Py.str_nat index in
  let error_file := "error_" +:+ Py.str_nat index in
  put_self {| jobs := jobs s; current_index := current_index s + 1 |} ;;
  job_id <- submit_sge_script name output_file error_file ;;
  print ("Submitted job " +:+ Py.str_nat index +:+ " with index "
         +:+ Py.str job_id) ;;
  let job := Job_init index name job_id output_file error_file in
  s <- get_self ;;
  put_self {| jobs := jobs s ++ [job]; current_index := current_index s |} ;;
  ret job.

(** [Submitter.__check_for_finish(self, job_index)]. *)
Definition check_for_finish (job_index : nat) : M bool :=
  job <- jobs_at job_index ;;
  if decide (status job ≠ RUNNING) then ret true
  else
    isfile <- os_path_isfile (output_file job) ;;
    if negb isfile then ret false
    else
      os_sync ;;
      (* If the output file is empty, wait a bit *)
      st_size <- os_stat_st_size (output_file job) ;;
      if decide (st_size = 0) then ret false
      else
        (isfile <- os_path_isfile (error_file job) ;;
         if isfile then
           st_size <- os_stat_st_size (error_file job) ;;
           if decide (st_size ≠ 0) then
             (* ob.output_string += open(job.error_file, 'r').read():
                the target [ob] is evaluated first *)
             ob <- unbound_name "ob" ;;
             text <- open_read (error_file job) ;;
             update_job ob (add_output text) ;;
             os_remove (error_file job)
           else update_job job_index (set_status FINISHED)
         else ret tt) ;;
        text <- open_read (output_file job) ;;
        update_job job_index (add_output text) ;;
        os_remove (output_file job) ;;
        print ("Job " +:+ Py.str_nat job_index +:+ " (" +:+ Py.str (job_id job)
               +:+ ") finished") ;;
        update_job job_index (set_status FINISHED) ;;
        ret true.

(** The body of the [for i in range(self.current_index)] loop of
    [__check_finished_jobs], over the indices still to visit. *)
Fixpoint check_finished_loop (indices : list nat) (finished : bool) : M bool :=
  match indices with
  | [] => ret finished
  | i :: rest =>
      r <- check_for_finish i ;;
      check_finished_loop rest (if negb r then false else finished)
  end.

(** [Submitter.__check_finished_jobs(self)]. *)
Definition check_finished_jobs : M bool :=
  s <- get_self ;;
  check_finished_loop (seq 0 (current_index s)) true.

(** [Submitter.wait(self)].  The loop has no bound of its own; [fuel]
    bounds the number of cycles, and [None] is a loop still running when
    the fuel is spent. *)
Fixpoint wait (fuel : nat) (st : State) : option (outcome unit) :=
  match fuel with
  | O => None
  | S fuel' =>
      match check_finished_jobs st with
      | Raised e st' => Some (Raised e st')
      | Returned true st' => Some (Returned tt st')
      | Returned false st' =>
          match time_sleep 1 st' with
          | Returned _ st'' => wait fuel' st''
          | Raised e st'' => Some (Raised e st'')
          end
      end
  end.

End Tracker.

(** ** Vocabulary of the properties *)

(** The state after the calls [evs] were recorded and nothing else changed. *)
Definition logged (evs : list event) (st : State) : State :=
  {| self := self st;
     os := {| files := files (os st); trace := trace (os st) ++ evs |} |}.

(** The state after the job at place [i] was replaced by [j'] and the file
    [path] deleted, the calls [evs] recorded. *)
Definition collected (i : nat) (j' : Job) (path : string) (evs : list event)
    (st : State) : State :=
  {| self := {| jobs := <[i := j']> (jobs (self st));
                current_index := current_index (self st) |};
     os := {| files := delete path (files (os st));
              trace := trace (os st) ++ evs |} |}.

(** The state after the job at place [i] was replaced by [j'] and the
    calls [evs] recorded, every file left as it was. *)
Definition restated (i : nat) (j' : Job) (evs : list event) (st : State) : State :=
  {| self := {| jobs := <[i := j']> (jobs (self st));
                current_index := current_index (self st) |};
     os := {| files := files (os st); trace := trace (os st) ++ evs |} |}.

(** A tracker just constructed, in a world with the files [fs]. *)
Definition fresh (fs : gmap string string) : State :=
  {| self := Submitter_init; os := {| files := fs; trace := [] |} |}.

(** The text qsub prints before the job id when it accepts a job. *)
Definition marker : string := "Your job ".

(** [sub] occurs somewhere in [s]. *)
Definition occurs (sub s : string) : Prop := ∃ p q, s = p +:+ sub +:+ q.

(** No occurrence of [sub] in [s] starts before the one that follows [pre]. *)
Definition first_after (sub s pre : string) : Prop :=
  ∀ p q, s = p +:+ sub +:+ q → (String.length pre ≤ String.length p)%nat.

Fixpoint all_digits (s : string) : bool :=
  match s with
  | EmptyString => true
  | String c s' => bool_decide (is_Some (Ascii.is_nat c)) && all_digits s'
  end.

(** A run of decimal digits: at least one, and nothing else. *)
Definition digit_run (ds : string) : Prop := ds ≠ "" ∧ all_digits ds = true.

(** The number a run of decimal digits denotes, most significant first. *)
Fixpoint decimal_from (acc : Z) (ds : string) : Z :=
  match ds with
  | EmptyString => acc
  | String c ds' =>
      decimal_from (10 * acc + Z.of_nat (default O (Ascii.is_nat c))) ds'
  end.
Definition decimal (ds : string) : Z := decimal_from 0 ds.

(** The job id lines 55 to 61 of [__submit_sge_script] compute from the
    text the command printed; [None] is the [ValueError] of [int]. *)
Definition parsed_job_id (stdout_data : string) : option Z :=
  let first := Py.find stdout_data marker in
  if decide (first = -1) then Some (-1)
  else
    let first := first + Py.len marker in
    let last := Py.find (Py.slice stdout_data (Some first) None) " " + first in
    Py.int (Py.slice stdout_data (Some first) (Some last)).

(** The state [submit] leaves when the command was run and gave no job:
    the counter has moved on, the list has not. *)
Definition abandoned (argv : list string) (st : State) : State :=
  {| self := {| jobs := jobs (self st);
                current_index := current_index (self st) + 1 |};
     os := os (logged [EvSpawn argv] st) |}.

(** The state [submit] leaves when it returns [job]. *)
Definition submitted (argv : list string) (job : Job) (st : State) : State :=
  {| self := {| jobs := jobs (self st) ++ [job];
                current_index := current_index (self st) + 1 |};
     os := os (logged [EvSpawn argv;
                       EvPrint ("Submitted job " +:+ Py.str_nat (index job)
                                +:+ " with index " +:+ Py.str (job_id job))] st) |}.

(** A status from which a job does not move. *)
Definition terminal (j : Job) : Prop :=
  status j = FAILED ∨ status j = FINISHED ∨ status j = ERROR.

(** Whether a call reads or deletes a file. *)
Definition touches_file (e : event) : bool :=
  match e with
  | EvRead _ | EvRemove _ => true
  | _ => false
  end.

(** The line [__check_for_finish] prints when it has collected a job. *)
Definition finished_notice (i : nat) (j : Job) : event :=
  EvPrint ("Job " +:+ Py.str_nat i +:+ " (" +:+ Py.str (job_id j) +:+ ") finished").

(** Every way one poll of place [i] can go from [st], by what it finds. *)
Inductive poll_outcome {L : Locale} (i : nat) (st : State) : outcome bool → Prop :=
| poll_missing :
    jobs (self st) !! i = None →
    poll_outcome i st (Raised IndexError st)
| poll_settled j :
    jobs (self st) !! i = Some j → status j ≠ RUNNING →
    poll_outcome i st (Returned true st)
| poll_no_output j :
    jobs (self st) !! i = Some j → status j = RUNNING →
    files (os st) !! output_file j = None →
    poll_outcome i st (Returned false (logged [EvIsFile (output_file j)] st))
| poll_empty_output j :
    jobs (self st) !! i = Some j → status j = RUNNING →
    files (os st) !! output_file j = Some "" →
    poll_outcome i st
      (Returned false
         (logged [EvIsFile (output_file j); EvSync; EvStat (output_file j)] st))
| poll_collect j bytes text :
    jobs (self st) !! i = Some j → status j = RUNNING →
    files (os st) !! output_file j = Some bytes → bytes ≠ "" →
    files (os st) !! error_file j = None →
    text_mode_read bytes = Some text →
    poll_outcome i st
      (Returned true
         (collected i (set_status FINISHED (add_output text j)) (output_file j)
            [EvIsFile (output_file j); EvSync; EvStat (output_file j);
             EvIsFile (error_file j);
             EvRead (output_file j); EvRemove (output_file j);
             finished_notice i j] st))
| poll_collect_empty_error j bytes text :
    jobs (self st) !! i = Some j → status j = RUNNING →
    files (os st) !! output_file j = Some bytes → bytes ≠ "" →
    files (os st) !! error_file j = Some "" →
    text_mode_read bytes = Some text →
    poll_outcome i st
      (Returned true
         (collected i (set_status FINISHED (add_output text j)) (output_file j)
            [EvIsFile (output_file j); EvSync; EvStat (output_file j);
             EvIsFile (error_file j); EvStat (error_file j);
             EvRead (output_file j); EvRemove (output_file j);
             finished_notice i j] st))
| poll_undecodable j bytes :
    jobs (self st) !! i = Some j → status j = RUNNING →
    files (os st) !! output_file j = Some bytes → bytes ≠ "" →
    files (os st) !! error_file j = None →
    text_mode_read bytes = None →
    poll_outcome i st
      (Raised UnicodeDecodeError
         (logged [EvIsFile (output_file j); EvSync; EvStat (output_file j);
                  EvIsFile (error_file j); EvRead (output_file j)] st))
| poll_undecodable_empty_error j bytes :
    jobs (self st) !! i = Some j → status j = RUNNING →
    files (os st) !! output_file j = Some bytes → bytes ≠ "" →
    files (os st) !! error_file j = Some "" →
    text_mode_read bytes = None →
    poll_outcome i st
      (Raised UnicodeDecodeError
         (restated i (set_status FINISHED j)
            [EvIsFile (output_file j); EvSync; EvStat (output_file j);
             EvIsFile (error_file j); EvStat (error_file j);
             EvRead (output_file j)] st))
| poll_unbound j bytes err :
    jobs (self st) !! i = Some j → status j = RUNNING →
    files (os st) !! output_file j = Some bytes → bytes ≠ "" →
    files (os st) !! error_file j = Some err → err ≠ "" →
    poll_outcome i st
      (Raised (NameError "ob")
         (logged [EvIsFile (output_file j); EvSync; EvStat (output_file j);
                  EvIsFile (error_file j); EvStat (error_file j)] st)).

(** What a poll may do to one job: nothing, or collect its output. *)
Definition job_advance (j j' : Job) : Prop :=
  j' = j ∨ (status j = RUNNING ∧ ∃ text, j' = set_status FINISHED (add_output text j)).

(** What holds of every job a tracker ever holds. *)
Definition job_ok (j : Job) : Prop :=
  (status j = FAILED ↔ job_id j = -1) ∧ status j ≠ ERROR.

(** The counter never falls behind the list. *)
Definition counter_ahead (s : Submitter) : Prop :=
  (length (jobs s) ≤ current_index s)%nat.

(** The jobs [js] stand at their indices, each with the script submitted
    in its turn and the two paths derived from its index. *)
Definition placed (names : list string) (js : list Job) : Prop :=
  ∀ i j, js !! i = Some j →
    index j = i
    ∧ names !! i = Some (sge_script j)
    ∧ output_file j = "output_" +:+ Py.str_nat i
    ∧ error_file j = "error_" +:+ Py.str_nat i.

(** The polls of one cycle as the specification words them: the listed
    places are polled one after the other, each poll returns, and [rs]
    collects what each reported. *)
Inductive polled_in_turn {L : Locale} :
    list nat → State → list bool → State → Prop :=
| polled_done st : polled_in_turn [] st [] st
| polled_next i rest st r st1 rs st2 :
    check_for_finish i st = Returned r st1 →
    polled_in_turn rest st1 rs st2 →
    polled_in_turn (i :: rest) st (r :: rs) st2.

Section Runs.

Context {L : Locale}.
Variable qsub : list string → World → popen_result.
Variable cluster : World → gmap string string.

(** The argument vector [submit] runs for the script [name] when the
    counter stands at [i]. *)
Definition submission_argv (name : string) (i : nat) : list string :=
  ["qsub"; "-o"; "output_" +:+ Py.str_nat i;
   "-e"; "error_" +:+ Py.str_nat i; name].

(** What the submission command answers to [submit name] in [st]. *)
Definition reply (name : string) (st : State) : popen_result :=
  qsub (submission_argv name (current_index (self st)))
       (os (logged [EvSpawn (submission_argv name (current_index (self st)))] st)).

(** One thing that can happen to a tracker and its world: a call of one
    of its methods, run to its return or to the exception it raises, or
    the cluster writing files on its own. *)
Inductive step : State → State → Prop :=
| step_submit name st : step st (state_of (submit qsub name st))
| step_poll i st : step st (state_of (check_for_finish i st))
| step_cycle st : step st (state_of (check_finished_jobs st))
| step_sleep n st : step st (state_of (time_sleep cluster n st))
| step_wait fuel st o : wait cluster fuel st = Some o → step st (state_of o)
| step_cluster fs st :
    step st {| self := self st;
               os := {| files := fs; trace := trace (os st) |} |}.

(** Everything but a submission. *)
Inductive other_step : State → State → Prop :=
| other_poll i st : other_step st (state_of (check_for_finish i st))
| other_cycle st : other_step st (state_of (check_finished_jobs st))
| other_sleep n st : other_step st (state_of (time_sleep cluster n st))
| other_wait fuel st o :
    wait cluster fuel st = Some o → other_step st (state_of o)
| other_cluster fs st :
    other_step st {| self := self st;
                     os := {| files := fs; trace := trace (os st) |} |}.

(** [completed n names st]: a fresh tracker reached [st] through [n]
    submissions, each of which returned its job, of the scripts [names]
    in that order, with polls, waits and the cluster's writes in
    between. *)
Inductive completed : nat → list string → State → Prop :=
| completed_fresh fs : completed 0 [] (fresh fs)
| completed_submit n names st name job st' :
    completed n names st →
    submit qsub name st = Returned job st' →
    completed (S n) (names ++ [name]) st'
| completed_other n names st st' :
    completed n names st →
    other_step st st' →
    completed n names st'.

End Runs.

(** ** Example collaborators and states *)

(** A qsub that accepts every script as job 12345. *)
Definition qsub_accepts : list string → World → popen_result :=
  λ _ _, Completed "qsub: Your job 12345 ('hostname_example.sge') has been submitted".

(** A qsub that rejects every script. *)
Definition qsub_rejects : list string → World → popen_result :=
  λ _ _, Completed "Unable to run job: denied".

(** No qsub on the path. *)
Definition qsub_missing : list string → World → popen_result :=
  λ _ _, SpawnFailed.

(** A qsub whose acceptance notice is preceded by a sentence that starts
    like it. *)
Definition notice_after_marker : string :=
  "Your job was accepted. Your job 12345 ('hostname_example.sge') has been submitted".
Definition qsub_chatty : list string → World → popen_result :=
  λ _ _, Completed notice_after_marker.

(** [n] nines. *)
Fixpoint nines (n : nat) : string :=
  match n with
  | O => ""
  | S n' => String "9" (nines n')
  end.

(** A qsub whose job id has 4301 digits. *)
Definition notice_too_long : string := marker +:+ nines 4301 +:+ " ".
Definition qsub_long : list string → World → popen_result :=
  λ _ _, Completed notice_too_long.

(** Outputs that hold the marker and no job id after it. *)
Definition notice_cut_short : string := "Your job 12345".
Definition notice_without_id : string := "Your job has been submitted".

(** A cluster that writes nothing while the tracker sleeps. *)
Definition idle_cluster : World → gmap string string := files.

(** One accepted job, then the cluster writes both of its files. *)
Definition one_running : State :=
  state_of (submit qsub_accepts "hostname_example.sge" (fresh ∅)).
Definition with_files (fs : gmap string string) (st : State) : State :=
  {| self := self st; os := {| files := fs; trace := trace (os st) |} |}.
Definition diagnostic_state : State :=
  with_files {[ "output_0" := "node17"; "error_0" := "real 0m0.01s" ]} one_running.
Definition clean_state : State :=
  with_files {[ "output_0" := "node17" ]} one_running.

(** One accepted job whose output file holds a byte that is no text in
    UTF-8 and none in ASCII. *)
Definition undecodable_bytes : string := "node" +:+ String "255" "17".
Definition undecodable_state : State :=
  with_files {[ "output_0" := undecodable_bytes ]} one_running.

(** One accepted job whose output file ends its line with CR LF. *)
Definition crlf_bytes : string := String "n" (String "1" (String "013" (String "010" ""))).
Definition crlf_state : State :=
  with_files {[ "output_0" := crlf_bytes ]} one_running.

(** A tracker holding one job that has finished. *)
Definition one_finished : State :=
  state_of (check_for_finish (L:=ascii_locale) 0 clean_state).

(** ** Reporting, and the module run as a script *)

(** [str(status)], which is how [format] renders a member of a plain
    [Enum]. *)
Definition str_status (s : JobStatus) : string :=
  match s with
  | FAILED => "JobStatus.FAILED"
  | RUNNING => "JobStatus.RUNNING"
  | FINISHED => "JobStatus.FINISHED"
  | ERROR => "JobStatus.ERROR"
  end.

(** [Submitter.__print_job(self, index, print_output=True)]. *)
Definition print_job (i : nat) (print_output : bool) : M unit :=
  job <- jobs_at i ;;
  print ("Job index " +:+ Py.str_nat (index job)
         +:+ " SGE script " +:+ sge_script job
         +:+ " Job Id " +:+ Py.str (job_id job)
         +:+ " status " +:+ str_status (status job)) ;;
  if print_output then
    if bool_decide (status job ∈ [FINISHED; ERROR]) then
      print ("  Output: " +:+ output_string job)
    else ret tt
  else ret tt.

(** The body of the [for i in range(self.current_index)] loop of
    [print_results], over the indices still to visit. *)
Fixpoint print_results_loop (indices : list nat) (print_output : bool) : M unit :=
  match indices with
  | [] => ret tt
  | i :: rest => print_job i print_output ;; print_results_loop rest print_output
  end.

(** [Submitter.print_results(self, print_output=True)]. *)
Definition print_results (print_output : bool) : M unit :=
  s <- get_self ;;
  print_results_loop (seq 0 (current_index s)) print_output.

Section Script.

Context {L : Locale}.
Variable qsub : list string → World → popen_result.
Variable cluster : World → gmap string string.

(** [for i in range(n): submitter.submit('hostname_example.sge')]. *)
Fixpoint submit_loop (n : nat) : M unit :=
  match n with
  | O => ret tt
  | S n' => submit qsub "hostname_example.sge" ;; submit_loop n'
  end.

(** The statements under [if __name__ == "__main__"]; [fuel] bounds the
    cycles of [wait]. *)
Definition main (fuel : nat) (st : State) : option (outcome unit) :=
  match (put_self Submitter_init ;; submit_loop 4) st with
  | Raised e st1 => Some (Raised e st1)
  | Returned _ st1 =>
      match wait cluster fuel st1 with
      | None => None
      | Some (Raised e st2) => Some (Raised e st2)
      | Some (Returned _ st2) => Some (print_results true st2)
      end
  end.

End Script.

(** The lines [__print_job] prints for a job: its summary and, when asked
    for and the job is FINISHED or ERROR, its captured output. *)
Definition job_lines (print_output : bool) (j : Job) : list event :=
  EvPrint ("Job index " +:+ Py.str_nat (index j)
           +:+ " SGE script " +:+ sge_script j
           +:+ " Job Id " +:+ Py.str (job_id j)
           +:+ " status " +:+ str_status (status j))
  :: if print_output && bool_decide (status j = FINISHED ∨ status j = ERROR)
     then [EvPrint ("  Output: " +:+ output_string j)]
     else [].

(** The report of a list of jobs, job after job. *)
Definition report (print_output : bool) (js : list Job) : list event :=
  js ≫= job_lines print_output.

(** No space in [w]. *)
Fixpoint spaceless (w : string) : bool :=
  match w with
  | EmptyString => true
  | String c w' => bool_decide (c ≠ " "%char) && spaceless w'
  end.

(** A job that has collected nothing yet has no captured output. *)
Definition job_quiet (j : Job) : Prop :=
  status j = FAILED ∨ status j = RUNNING → output_string j = "".

(** The counter has run ahead of the list: a submission raised. *)
Definition counter_leaked (s : Submitter) : Prop :=
  (length (jobs s) < current_index s)%nat.

(** A RUNNING job whose output is there to collect: a non-empty output
    file whose bytes are text in the locale's encoding, and no error file
    or an empty one. *)
Definition ready {L : Locale} (fs : gmap string string) (j : Job) : Prop :=
  ∃ bytes, fs !! output_file j = Some bytes ∧ bytes ≠ ""
           ∧ is_Some (text_mode_read bytes)
           ∧ (fs !! error_file j = None ∨ fs !! error_file j = Some "").

(** What a cycle makes of a job whose output is ready: the text read from
    its output file is appended to what it has captured. *)
Definition collect_from {L : Locale} (fs : gmap string string) (j : Job) : Job :=
  if decide (status j = RUNNING)
  then set_status FINISHED
         (add_output (default "" (fs !! output_file j ≫= text_mode_read)) j)
  else j.

(** Two accepted jobs with their outputs written. *)
Definition two_ready : State :=
  with_files {[ "output_0" := "node17"; "output_1" := "node18"; "error_1" := "" ]}
    (state_of (submit qsub_accepts "second.sge"
                 (state_of (submit qsub_accepts "first.sge" (fresh ∅))))).

(** A qsub whose notice carries a signed number. *)
Definition qsub_signed : list string → World → popen_result :=
  λ _ _, Completed "Your job -1 ('hostname_example.sge') has been submitted".

(** A cluster that has written the output of four jobs by the end of
    the first sleep. *)
Definition cluster_done : World → gmap string string :=
  λ _, {[ "output_0" := "node17"; "output_1" := "node18";
          "output_2" := "node19"; "output_3" := "node20" ]}.

(** Unfolds one poll down to the state it threads. *)
Ltac unfold_poll :=
  unfold check_for_finish, jobs_at, update_job, os_path_isfile, os_sync,
    os_stat_st_size, open_read, os_remove, print, unbound_name, log, bind,
    ret, raise, get_self, put_self, get_os, put_os.

(** * Properties *)
(** ** Strings *)

Lemma app_cons (a : ascii) (s r : string) : String a s +:+ r = String a (s +:+ r).
Proof. reflexivity. Qed.

Lemma app_empty_l (r : string) : "" +:+ r = r.
Proof. reflexivity. Qed.

Lemma app_assoc_s (a b c : string) : (a +:+ b) +:+ c = a +:+ b +:+ c.
Proof. induction a as [|x a IH]; [done|]. rewrite !app_cons. by rewrite IH. Qed.

Lemma length_app_s (a b : string) :
  String.length (a +:+ b) = (String.length a + String.length b)%nat.
Proof. induction a as [|x a IH]; [done|]. rewrite app_cons. simpl. by rewrite IH. Qed.

Lemma len_app (a b : string) : Py.len (a +:+ b) = Py.len a + Py.len b.
Proof. unfold Py.len. rewrite length_app_s. lia. Qed.

Lemma len_nonneg (s : string) : 0 ≤ Py.len s.
Proof. unfold Py.len. lia. Qed.

Lemma len_zero (s : string) : Py.len s = 0 ↔ s = "".
Proof. unfold Py.len. destruct s; simpl; split; intros; try done; lia. Qed.

Lemma substring_skip (p s : string) (m : nat) :
  String.substring (String.length p) m (p +:+ s) = String.substring 0 m s.
Proof. induction p as [|x p IH]; [done|]. rewrite app_cons. simpl. exact IH. Qed.

Lemma substring_take (a b : string) :
  String.substring 0 (String.length a) (a +:+ b) = a.
Proof.
  induction a as [|x a IH]; simpl.
  - by destruct b.
  - rewrite ?app_cons. by rewrite IH.
Qed.

Lemma substring_all (s : string) : String.substring 0 (String.length s) s = s.
Proof. induction s as [|x s IH]; simpl; [done|]. by rewrite IH. Qed.

Lemma substring_none (n : nat) (s : string) : String.substring n 0 s = "".
Proof. revert n. induction s as [|x s IH]; intros [|n]; simpl; auto. Qed.

(** ** Slices *)

Lemma slice_from (p s : string) : Py.slice (p +:+ s) (Some (Py.len p)) None = s.
Proof.
  unfold Py.slice, Py.clamp. simpl. rewrite len_app.
  pose proof (len_nonneg p). pose proof (len_nonneg s).
  destruct (Z.ltb_spec (Py.len p) 0); [lia|].
  destruct (Z.ltb_spec (Py.len p + Py.len s) 0); [lia|].
  rewrite !Z.min_l by lia.
  replace (Py.len p + Py.len s - Py.len p) with (Py.len s) by lia.
  unfold Py.len. rewrite !Nat2Z.id. rewrite substring_skip. apply substring_all.
Qed.

Lemma slice_between (p m q : string) :
  Py.slice (p +:+ m +:+ q) (Some (Py.len p)) (Some (Py.len m + Py.len p)) = m.
Proof.
  unfold Py.slice, Py.clamp. simpl. rewrite !len_app.
  pose proof (len_nonneg p). pose proof (len_nonneg m). pose proof (len_nonneg q).
  destruct (Z.ltb_spec (Py.len p) 0); [lia|].
  destruct (Z.ltb_spec (Py.len m + Py.len p) 0); [lia|].
  rewrite !Z.min_l by lia.
  replace (Py.len m + Py.len p - Py.len p) with (Py.len m) by lia.
  unfold Py.len. rewrite !Nat2Z.id. rewrite substring_skip. apply substring_take.
Qed.

Lemma slice_backwards (s : string) (lo : Z) :
  0 ≤ lo → Py.slice s (Some (1 + lo)) (Some lo) = "".
Proof.
  intros Hlo. unfold Py.slice, Py.clamp. simpl.
  pose proof (len_nonneg s).
  destruct (Z.ltb_spec (1 + lo) 0); [lia|].
  destruct (Z.ltb_spec lo 0); [lia|].
  replace (Z.to_nat (Z.min lo (Py.len s) - Z.min (1 + lo) (Py.len s))) with O by lia.
  apply substring_none.
Qed.

(** ** find *)

Lemma startswith_app (sub r : string) : Py.startswith sub (sub +:+ r) = true.
Proof.
  induction sub as [|a sub IH]; simpl; [done|].
  rewrite ?app_cons. by rewrite decide_True.
Qed.

Lemma startswith_inv (sub s : string) :
  Py.startswith sub s = true → ∃ r, s = sub +:+ r.
Proof.
  revert s. induction sub as [|a sub IH]; intros s H.
  - by exists s.
  - destruct s as [|b s]; simpl in H; [done|].
    destruct (decide (a = b)) as [->|]; [|done].
    destruct (IH s H) as [r ->]. by exists r.
Qed.

Lemma find_from_hit (sub s : string) (i : Z) :
  Py.startswith sub s = true → Py.find_from sub s i = i.
Proof. intros H. destruct s; simpl; by rewrite H. Qed.

Lemma find_from_absent (sub s : string) (i : Z) :
  ¬ occurs sub s → Py.find_from sub s i = -1.
Proof.
  revert i. induction s as [|c s IH]; intros i Hno.
  - simpl. destruct (Py.startswith sub "") eqn:E; [|done].
    destruct Hno. apply startswith_inv in E as [r ->]. by exists "", r.
  - simpl. destruct (Py.startswith sub (String c s)) eqn:E.
    + destruct Hno. apply startswith_inv in E as [r E]. exists "", r. by rewrite E.
    + apply IH. intros (p & q & ->). apply Hno. by exists (String c p), q.
Qed.

Lemma find_from_first (sub pre rest : string) (i : Z) :
  first_after sub (pre +:+ sub +:+ rest) pre →
  Py.find_from sub (pre +:+ sub +:+ rest) i = i + Py.len pre.
Proof.
  revert i. induction pre as [|c pre IH]; intros i Hfirst.
  - rewrite app_empty_l, find_from_hit by apply startswith_app.
    unfold Py.len. simpl. lia.
  - rewrite ?app_cons. simpl.
    destruct (Py.startswith sub _) eqn:E.
    + apply startswith_inv in E as [r E].
      specialize (Hfirst "" r). rewrite app_cons in Hfirst.
      rewrite app_empty_l in Hfirst. specialize (Hfirst E). simpl in Hfirst. lia.
    + rewrite IH.
      * unfold Py.len. simpl String.length. lia.
      * intros p q Hpq. specialize (Hfirst (String c p) q).
        rewrite !app_cons in Hfirst. rewrite Hpq in Hfirst.
        specialize (Hfirst eq_refl). simpl in Hfirst. lia.
Qed.

Lemma find_from_occurs (sub p q : string) (i : Z) :
  i ≤ Py.find_from sub (p +:+ sub +:+ q) i ≤ i + Py.len p.
Proof.
  revert i. induction p as [|c p IH]; intros i.
  - rewrite app_empty_l, find_from_hit by apply startswith_app.
    pose proof (len_nonneg ""). lia.
  - simpl. unfold Py.len. simpl String.length.
    destruct (Py.startswith sub _); [lia|].
    specialize (IH (i + 1)). unfold Py.len in IH. lia.
Qed.

(** [find] is [-1] exactly when there is no occurrence, ... *)
Lemma find_absent (sub s : string) : Py.find s sub = -1 ↔ ¬ occurs sub s.
Proof.
  split.
  - intros H (p & q & ->). pose proof (find_from_occurs sub p q 0).
    unfold Py.find in H. lia.
  - apply find_from_absent.
Qed.

(** ... and otherwise the offset of the first one. *)
Lemma find_first_after (sub pre rest : string) :
  Py.find (pre +:+ sub +:+ rest) sub = Py.len pre ↔
  first_after sub (pre +:+ sub +:+ rest) pre.
Proof.
  split.
  - intros H p q E. pose proof (find_from_occurs sub p q 0) as Hle.
    rewrite <- E in Hle. unfold Py.find in H. rewrite H in Hle.
    unfold Py.len in Hle. lia.
  - intros H. unfold Py.find. rewrite find_from_first by done. lia.
Qed.

(** ** int *)

Lemma digit_not_space (c : ascii) : is_Some (Ascii.is_nat c) → c ≠ " "%char.
Proof. intros [n H] ->. discriminate. Qed.

Lemma find_space_after_digits (ds post : string) (i : Z) :
  all_digits ds = true →
  Py.find_from " " (ds +:+ " " +:+ post) i = i + Py.len ds.
Proof.
  revert i. induction ds as [|c ds IH]; intros i Hds.
  - rewrite app_empty_l, find_from_hit by apply startswith_app.
    unfold Py.len. simpl. lia.
  - simpl in Hds. apply andb_prop in Hds as [Hc Hds].
    apply bool_decide_eq_true in Hc. apply digit_not_space in Hc.
    simpl. rewrite decide_False by congruence.
    rewrite IH by done. unfold Py.len. simpl String.length. lia.
Qed.

Lemma int_digits_all (acc : Z) (ds : string) :
  all_digits ds = true → Py.int_digits acc ds = Some (decimal_from acc ds).
Proof.
  revert acc. induction ds as [|c ds IH]; intros acc Hds; [done|].
  simpl in Hds. apply andb_prop in Hds as [Hc Hds].
  apply bool_decide_eq_true in Hc as [n Hn].
  simpl. unfold Py.digit. rewrite Hn. simpl. by apply IH.
Qed.

Lemma count_digits_all (ds : string) :
  all_digits ds = true → Py.count_digits ds = String.length ds.
Proof.
  induction ds as [|c ds IH]; intros Hds; [done|].
  simpl in Hds. apply andb_prop in Hds as [Hc Hds].
  apply bool_decide_eq_true in Hc as [n Hn].
  simpl. unfold Py.digit. rewrite Hn. simpl. by rewrite IH.
Qed.

(** A literal that starts with a digit has no white space to skip and no
    sign. *)
Lemma int_digit_head (c : ascii) (s : string) :
  is_Some (Ascii.is_nat c) → Py.int (String c s) = Py.int_unsigned (String c s).
Proof.
  intros [n Hn].
  destruct c as [[] [] [] [] [] [] [] []]; try discriminate Hn; reflexivity.
Qed.

Lemma int_digit_run (ds : string) :
  digit_run ds → (String.length ds ≤ Py.max_str_digits)%nat →
  Py.int ds = Some (decimal ds).
Proof.
  intros [Hne Hds] Hlen. destruct ds as [|c ds]; [done|].
  pose proof (count_digits_all _ Hds) as Hcount.
  simpl in Hds. apply andb_prop in Hds as [Hc Hds].
  apply bool_decide_eq_true in Hc.
  rewrite int_digit_head by done. destruct Hc as [n Hn].
  unfold Py.int_unsigned.
  replace (Py.digit c) with (Some (Z.of_nat n)) by (unfold Py.digit; by rewrite Hn).
  cbv beta iota. rewrite (int_digits_all _ _ Hds), Hcount, decide_True by done.
  unfold decimal. simpl. by rewrite Hn.
Qed.

(** A run of more digits than the limit is rejected. *)
Lemma int_long_digit_run (ds : string) :
  digit_run ds → (Py.max_str_digits < String.length ds)%nat →
  Py.int ds = None.
Proof.
  intros [Hne Hds] Hlen. destruct ds as [|c ds]; [done|].
  pose proof (count_digits_all _ Hds) as Hcount.
  simpl in Hds. apply andb_prop in Hds as [Hc Hds].
  apply bool_decide_eq_true in Hc.
  rewrite int_digit_head by done. destruct Hc as [n Hn].
  unfold Py.int_unsigned.
  replace (Py.digit c) with (Some (Z.of_nat n)) by (unfold Py.digit; by rewrite Hn).
  cbv beta iota. rewrite (int_digits_all _ _ Hds), Hcount.
  by rewrite decide_False by lia.
Qed.

Lemma decimal_nonneg_from (acc : Z) (ds : string) : 0 ≤ acc → 0 ≤ decimal_from acc ds.
Proof.
  revert acc. induction ds as [|c ds IH]; intros acc H; simpl; [done|].
  apply IH. lia.
Qed.

Lemma decimal_nonneg (ds : string) : 0 ≤ decimal ds.
Proof. by apply decimal_nonneg_from. Qed.

(** ** Submission *)

Section Submission.

Variable qsub : list string → World → popen_result.

Lemma submit_eq (name : string) (st : State) :
  let i := current_index (self st) in
  let argv := submission_argv name i in
  submit qsub name st =
  match reply qsub name st with
  | SpawnFailed => Raised OSError (abandoned argv st)
  | Completed stdout_data =>
      match parsed_job_id stdout_data with
      | Some id =>
          let job := Job_init i name id ("output_" +:+ Py.str_nat i)
                              ("error_" +:+ Py.str_nat i) in
          Returned job (submitted argv job st)
      | None => Raised ValueError (abandoned argv st)
      end
  end.
Proof.
  unfold submit, submit_sge_script, Popen_communicate, reply, parsed_job_id,
    submission_argv, print, log, bind, ret, raise, get_self, put_self,
    get_os, put_os, marker, abandoned, submitted, logged. simpl.
  destruct (qsub _ _) as [|out]; [done|].
  destruct (decide (Py.find out "Your job " = -1)); simpl.
  - rewrite <- app_assoc. done.
  - destruct (Py.int _); simpl; [|done].
    rewrite <- app_assoc. done.
Qed.

End Submission.

Lemma parsed_absent (out : string) : ¬ occurs marker out → parsed_job_id out = Some (-1).
Proof.
  intros H. unfold parsed_job_id, Py.find. rewrite find_from_absent by done.
  by rewrite decide_True.
Qed.

Lemma parsed_digit_run (pre ds post : string) :
  let out := pre +:+ marker +:+ ds +:+ " " +:+ post in
  first_after marker out pre → digit_run ds →
  (String.length ds ≤ Py.max_str_digits)%nat →
  parsed_job_id out = Some (decimal ds).
Proof.
  intros out Hfirst Hds Hlen. unfold parsed_job_id, Py.find, out.
  rewrite find_from_first by done.
  pose proof (len_nonneg pre).
  rewrite decide_False by lia.
  replace (0 + Py.len pre + Py.len marker) with (Py.len (pre +:+ marker))
    by (rewrite len_app; lia).
  rewrite <- (app_assoc_s pre marker).
  rewrite slice_from. rewrite find_space_after_digits by apply Hds.
  rewrite Z.add_0_l. rewrite slice_between. by apply int_digit_run.
Qed.

Lemma parsed_no_space (pre rest : string) :
  let out := pre +:+ marker +:+ rest in
  first_after marker out pre → ¬ occurs " " rest →
  parsed_job_id out = None.
Proof.
  intros out Hfirst Hno. unfold parsed_job_id, Py.find, out.
  rewrite find_from_first by done.
  pose proof (len_nonneg pre).
  rewrite decide_False by lia.
  replace (0 + Py.len pre + Py.len marker) with (Py.len (pre +:+ marker))
    by (rewrite len_app; lia).
  rewrite <- (app_assoc_s pre marker).
  rewrite slice_from, find_from_absent by done.
  pose proof (len_nonneg (pre +:+ marker)).
  assert (Py.len (pre +:+ marker) = 1 + (-1 + Py.len (pre +:+ marker))) as E by lia.
  rewrite E at 1. rewrite slice_backwards; [done|].
  rewrite len_app. unfold Py.len at 2. simpl. lia.
Qed.

(** ** One poll *)

Lemma is_Some_true {A} (o : option A) (x : A) :
  o = Some x → bool_decide (is_Some o) = true.
Proof. intros ->. apply bool_decide_eq_true. eauto. Qed.

Lemma is_Some_false {A} (o : option A) :
  o = None → bool_decide (is_Some o) = false.
Proof. intros ->. apply bool_decide_eq_false. by intros [? ?]. Qed.

Lemma set_status_again (s s' : JobStatus) (text : string) (j : Job) :
  set_status s (add_output text (set_status s' j)) = set_status s (add_output text j).
Proof. reflexivity. Qed.

Lemma check_for_finish_spec {L : Locale} (i : nat) (st : State) :
  poll_outcome i st (check_for_finish i st).
Proof.
  destruct (jobs (self st) !! i) as [j|] eqn:Hj.
  2: { unfold_poll. simpl. rewrite Hj. by constructor. }
  destruct (decide (status j ≠ RUNNING)) as [Hs|Hs].
  { unfold_poll. simpl. rewrite Hj. simpl. rewrite decide_True by done.
    by econstructor. }
  apply dec_stable in Hs.
  destruct (files (os st) !! output_file j) as [bytes|] eqn:Hout.
  2: { unfold_poll. simpl. rewrite Hj. simpl. rewrite decide_False by tauto.
       simpl. rewrite (is_Some_false _ Hout). simpl. by apply poll_no_output. }
  destruct (decide (bytes = "")) as [->|Hbytes].
  { unfold_poll. simpl. rewrite Hj. simpl. rewrite decide_False by tauto.
    simpl. rewrite (is_Some_true _ _ Hout). simpl. rewrite Hout. simpl.
    unfold logged. rewrite <- !app_assoc. by apply poll_empty_output. }
  assert (Py.len bytes ≠ 0) as Hlen by (by rewrite len_zero).
  destruct (files (os st) !! error_file j) as [err|] eqn:Herr.
  2: { unfold_poll. simpl. rewrite Hj. simpl. rewrite decide_False by tauto.
       simpl. rewrite (is_Some_true _ _ Hout). simpl. rewrite Hout. simpl.
       rewrite decide_False by done. simpl.
       rewrite (is_Some_false _ Herr). simpl. rewrite Hout. simpl.
       destruct (text_mode_read bytes) as [text|] eqn:Htext; simpl.
       - rewrite Hj. simpl. rewrite Hout. simpl.
         rewrite list_lookup_insert_eq by (by eapply lookup_lt_Some). simpl.
         rewrite list_insert_insert_eq. rewrite <- !app_assoc. simpl.
         by eapply poll_collect.
       - unfold logged. rewrite <- !app_assoc. simpl.
         by eapply poll_undecodable. }
  destruct (decide (err = "")) as [->|Hne].
  - unfold_poll. simpl. rewrite Hj. simpl. rewrite decide_False by tauto.
    simpl. rewrite (is_Some_true _ _ Hout). simpl. rewrite Hout. simpl.
    rewrite decide_False by done. simpl.
    rewrite (is_Some_true _ _ Herr). simpl. rewrite Herr. simpl.
    rewrite Hj. simpl. rewrite Hout. simpl.
    destruct (text_mode_read bytes) as [text|] eqn:Htext; simpl.
    + rewrite list_lookup_insert_eq by (by eapply lookup_lt_Some). simpl.
      rewrite Hout. simpl.
      rewrite list_lookup_insert_eq
        by (rewrite length_insert; by eapply lookup_lt_Some).
      simpl. rewrite !list_insert_insert_eq. rewrite <- !app_assoc. simpl.
      rewrite set_status_again. by eapply poll_collect_empty_error.
    + unfold restated. rewrite <- !app_assoc. simpl.
      by eapply poll_undecodable_empty_error.
  - assert (Py.len err ≠ 0) as Hlen' by (by rewrite len_zero).
    unfold_poll. simpl. rewrite Hj. simpl. rewrite decide_False by tauto.
    simpl. rewrite (is_Some_true _ _ Hout). simpl. rewrite Hout. simpl.
    rewrite decide_False by done. simpl.
    rewrite (is_Some_true _ _ Herr). simpl. rewrite Herr. simpl.
    rewrite decide_True by done. simpl.
    unfold logged. rewrite <- !app_assoc. simpl. by eapply poll_unbound.
Qed.

(** ** What polls leave alone *)

Lemma terminal_not_running (j : Job) : terminal j ↔ status j ≠ RUNNING.
Proof.
  unfold terminal. destruct (status j); split; intros H; try done; auto.
  by destruct H as [|[|]].
Qed.

Lemma job_advance_refl (j : Job) : job_advance j j.
Proof. by left. Qed.

Lemma job_advance_trans (a b c : Job) :
  job_advance a b → job_advance b c → job_advance a c.
Proof.
  intros [->|[Ha [t ->]]] Hbc; [done|].
  destruct Hbc as [->|[Hb _]]; [right; eauto | done].
Qed.

Lemma app_empty_r_s (a : string) : a +:+ "" = a.
Proof. induction a as [|x a IH]; [done|]. rewrite app_cons. by rewrite IH. Qed.

(** Marking a RUNNING job FINISHED with nothing read is collecting the
    empty text. *)
Lemma job_advance_finish (j : Job) :
  status j = RUNNING → job_advance j (set_status FINISHED j).
Proof.
  intros Hs. right. split; [done|]. exists "".
  unfold set_status, add_output. simpl. by rewrite app_empty_r_s.
Qed.

Lemma jobs_advance_refl (js : list Job) : Forall2 job_advance js js.
Proof. apply Forall_Forall2_diag, Forall_forall. intros; apply job_advance_refl. Qed.

Lemma jobs_advance_trans (a b c : list Job) :
  Forall2 job_advance a b → Forall2 job_advance b c → Forall2 job_advance a c.
Proof.
  intros Hab. revert c. induction Hab as [|x y a b Hxy _ IH]; intros c Hbc.
  - by inversion Hbc.
  - inversion Hbc as [|? z ? c' Hyz Hbc']; subst. constructor; [|by apply IH].
    by eapply job_advance_trans.
Qed.

Lemma jobs_advance_insert (js : list Job) (i : nat) (j j' : Job) :
  js !! i = Some j → job_advance j j' → Forall2 job_advance js (<[i := j']> js).
Proof.
  intros Hj Hadv. rewrite <- (list_insert_id js i j Hj) at 1.
  apply Forall2_insert; [apply jobs_advance_refl | done].
Qed.

(** A poll moves neither the counter nor any job but, at most, its own,
    which it can only collect. *)
Lemma poll_advances {L : Locale} (i : nat) (st : State) :
  let st' := state_of (check_for_finish i st) in
  current_index (self st') = current_index (self st) ∧
  Forall2 job_advance (jobs (self st)) (jobs (self st')).
Proof.
  destruct (check_for_finish_spec i st); simpl;
    (split; [done|]); try apply jobs_advance_refl.
  all: eapply jobs_advance_insert; [done|];
    first [by apply job_advance_finish | right; eauto].
Qed.

Lemma poll_other_places {L : Locale} (i k : nat) (st : State) :
  k ≠ i →
  jobs (self (state_of (check_for_finish i st))) !! k = jobs (self st) !! k.
Proof.
  intros Hk. destruct (check_for_finish_spec i st); simpl; try done.
  all: by rewrite list_lookup_insert_ne.
Qed.

(** What a poll reports is whether its job is, from then on, out of
    [RUNNING]. *)
Lemma poll_reports_status {L : Locale} (i : nat) (st st' : State) (r : bool) :
  check_for_finish i st = Returned r st' →
  ∃ j', jobs (self st') !! i = Some j' ∧ (r = true ↔ status j' ≠ RUNNING).
Proof.
  intros H. destruct (check_for_finish_spec i st) as
    [Hj|j Hj Hs|j Hj Hs|j Hj Hs|j bytes text Hj Hs|j bytes text Hj Hs
    |j bytes Hj Hs|j bytes Hj Hs|j bytes err Hj Hs];
    simplify_eq.
  - exists j. naive_solver.
  - exists j. simpl. split; [done|]. split; [done|]. congruence.
  - exists j. simpl. split; [done|]. split; [done|]. congruence.
  - eexists. simpl. split.
    + apply list_lookup_insert_eq. by eapply lookup_lt_Some.
    + simpl. done.
  - eexists. simpl. split.
    + apply list_lookup_insert_eq. by eapply lookup_lt_Some.
    + simpl. done.
Qed.

(** A job that has left [RUNNING] is never written again by a poll. *)
Lemma job_advance_settled (j j' : Job) :
  job_advance j j' → status j ≠ RUNNING → j' = j.
Proof. intros [->|[? _]]; done. Qed.

Lemma jobs_advance_lookup (js js' : list Job) (i : nat) (j : Job) :
  Forall2 job_advance js js' → js !! i = Some j →
  ∃ j', js' !! i = Some j' ∧ job_advance j j'.
Proof. intros H Hj. by eapply Forall2_lookup_l. Qed.

Lemma jobs_advance_length (js js' : list Job) :
  Forall2 job_advance js js' → length js' = length js.
Proof. intros H. symmetry. by eapply Forall2_length. Qed.

(** ** One cycle *)

Lemma loop_polls_in_turn {L : Locale} (indices : list nat) (acc r : bool) (st st' : State) :
  check_finished_loop indices acc st = Returned r st' ↔
  ∃ rs, polled_in_turn indices st rs st' ∧ r = acc && forallb id rs.
Proof.
  revert acc st. induction indices as [|i rest IH]; intros acc st; simpl.
  - unfold ret. split.
    + intros [= <- <-]. exists []. split; [constructor|]. by rewrite andb_true_r.
    + intros (rs & Hp & ->). inversion Hp; subst. simpl. by rewrite andb_true_r.
  - unfold bind. split.
    + destruct (check_for_finish i st) as [b st1|] eqn:Hi; [|done].
      intros (rs & Hp & ->)%IH. exists (b :: rs). split; [by econstructor|].
      simpl. by destruct b, acc.
    + intros (rs & Hp & ->). inversion Hp as [|? ? ? b st1 rs' ? Hi Hrest]; subst.
      rewrite Hi. apply IH. exists rs'. split; [done|].
      simpl. by destruct b, acc.
Qed.

Lemma polled_length {L : Locale} (indices : list nat) (st st' : State) (rs : list bool) :
  polled_in_turn indices st rs st' → length rs = length indices.
Proof. induction 1; simpl; congruence. Qed.

Lemma polled_advances {L : Locale} (indices : list nat) (st st' : State) (rs : list bool) :
  polled_in_turn indices st rs st' →
  current_index (self st') = current_index (self st) ∧
  Forall2 job_advance (jobs (self st)) (jobs (self st')).
Proof.
  induction 1 as [st|i rest st r st1 rs st2 Hi _ [IHc IHj]].
  - split; [done | apply jobs_advance_refl].
  - pose proof (poll_advances i st) as [Hc Hj]. rewrite Hi in Hc, Hj. simpl in *.
    split; [congruence | by eapply jobs_advance_trans].
Qed.

Lemma polled_other_places {L : Locale} (indices : list nat) (st st' : State) (rs : list bool)
    (k : nat) :
  polled_in_turn indices st rs st' → k ∉ indices →
  jobs (self st') !! k = jobs (self st) !! k.
Proof.
  induction 1 as [st|i rest st r st1 rs st2 Hi _ IH]; intros Hk; [done|].
  apply not_elem_of_cons in Hk as [Hki Hk]. rewrite IH by done.
  pose proof (poll_other_places i k st Hki) as E. by rewrite Hi in E.
Qed.

Lemma polled_reports_status {L : Locale} (indices : list nat) (st st' : State) (rs : list bool) :
  polled_in_turn indices st rs st' → NoDup indices →
  Forall2 (λ k r, ∃ j, jobs (self st') !! k = Some j
                       ∧ (r = true ↔ status j ≠ RUNNING)) indices rs.
Proof.
  induction 1 as [st|i rest st r st1 rs st2 Hi Hrest IH]; intros Hnd; [constructor|].
  apply NoDup_cons in Hnd as [Hi_rest Hnd]. constructor; [|by apply IH].
  destruct (poll_reports_status _ _ _ _ Hi) as (j' & Hj' & Hr).
  exists j'. split; [|done].
  by rewrite (polled_other_places _ _ _ _ _ Hrest Hi_rest).
Qed.

Lemma forallb_id_lookup (rs : list bool) :
  forallb id rs = true ↔ ∀ k r, rs !! k = Some r → r = true.
Proof.
  induction rs as [|b rs IH]; simpl.
  - split; [intros _ k r; by rewrite lookup_nil | done].
  - rewrite andb_true_iff, IH. split.
    + intros [Hb Hrs] [|k] r; simpl; [by intros [= <-] | apply Hrs].
    + intros H. split; [by apply (H O) | intros k r; apply (H (S k))].
Qed.

(** A cycle that returns has polled every place below the counter, so the
    counter is within the list; its answer is whether every job there is
    out of [RUNNING]. *)
Lemma polled_all_terminal {L : Locale} (n : nat) (st st' : State) (rs : list bool) :
  polled_in_turn (seq 0 n) st rs st' →
  (length (jobs (self st)) ≤ n)%nat →
  length (jobs (self st')) = n ∧
  (forallb id rs = true ↔ Forall terminal (jobs (self st'))).
Proof.
  intros Hp Hn.
  pose proof (polled_reports_status _ _ _ _ Hp (NoDup_seq 0 n)) as Hrs.
  pose proof (polled_advances _ _ _ _ Hp) as [_ Hadv].
  apply jobs_advance_length in Hadv.
  assert (length (jobs (self st')) = n) as Hlen.
  { destruct n as [|n]; [lia|].
    assert (seq 0 (S n) !! n = Some n) as Hlast
      by (apply lookup_seq; lia).
    destruct (Forall2_lookup_l _ _ _ _ _ Hrs Hlast) as (r & _ & j & Hj & _).
    apply lookup_lt_Some in Hj. lia. }
  split; [done|].
  rewrite forallb_id_lookup, Forall_lookup. split.
  - intros Hall k j Hj. apply terminal_not_running.
    assert (seq 0 n !! k = Some k) as Hk
      by (apply lookup_seq; split; [done|]; apply lookup_lt_Some in Hj; lia).
    destruct (Forall2_lookup_l _ _ _ _ _ Hrs Hk) as (r & Hr & j' & Hj' & Hiff).
    simplify_eq. apply Hiff. by eapply Hall.
  - intros Hall k r Hr.
    destruct (Forall2_lookup_r _ _ _ _ _ Hrs Hr) as (k' & Hk' & j & Hj & Hiff).
    apply Hiff, terminal_not_running. by eapply Hall.
Qed.

Lemma cycle_polls_in_turn {L : Locale} (r : bool) (st st' : State) :
  check_finished_jobs st = Returned r st' ↔
  ∃ rs, polled_in_turn (seq 0 (current_index (self st))) st rs st'
        ∧ r = forallb id rs.
Proof.
  unfold check_finished_jobs, bind, get_self. simpl.
  by rewrite loop_polls_in_turn.
Qed.

Lemma loop_advances {L : Locale} (indices : list nat) (acc : bool) (st : State) :
  let st' := state_of (check_finished_loop indices acc st) in
  current_index (self st') = current_index (self st) ∧
  Forall2 job_advance (jobs (self st)) (jobs (self st')).
Proof.
  revert acc st. induction indices as [|i rest IH]; intros acc st; simpl.
  - split; [done | apply jobs_advance_refl].
  - pose proof (poll_advances i st) as [Hc Hj]. unfold bind.
    destruct (check_for_finish i st) as [r st1|e st1]; simpl in *; [|done].
    destruct (IH (if negb r then false else acc) st1) as [Hc' Hj'].
    split; [congruence | by eapply jobs_advance_trans].
Qed.

Lemma cycle_advances {L : Locale} (st : State) :
  let st' := state_of (check_finished_jobs st) in
  current_index (self st') = current_index (self st) ∧
  Forall2 job_advance (jobs (self st)) (jobs (self st')).
Proof. apply loop_advances. Qed.

Section Steps.

Context {L : Locale}.

Variable qsub : list string → World → popen_result.
Variable cluster : World → gmap string string.

Lemma sleep_returns (n : Z) (st : State) :
  ∃ st', time_sleep cluster n st = Returned tt st' ∧ self st' = self st.
Proof. eexists. split; reflexivity. Qed.

Lemma wait_advances (fuel : nat) (st : State) (o : outcome unit) :
  wait cluster fuel st = Some o →
  current_index (self (state_of o)) = current_index (self st) ∧
  Forall2 job_advance (jobs (self st)) (jobs (self (state_of o))).
Proof.
  revert st. induction fuel as [|fuel IH]; intros st; simpl; [done|].
  pose proof (cycle_advances st) as [Hc Hj].
  destruct (check_finished_jobs st) as [[] st1|e st1]; simpl in *.
  - by intros [= <-].
  - intros [Hc' Hj']%IH. simpl in *.
    split; [congruence | by eapply jobs_advance_trans].
  - by intros [= <-].
Qed.

Lemma other_step_advances (st st' : State) :
  other_step cluster st st' →
  current_index (self st') = current_index (self st) ∧
  Forall2 job_advance (jobs (self st)) (jobs (self st')).
Proof.
  destruct 1; simpl.
  - apply poll_advances.
  - apply cycle_advances.
  - split; [done | apply jobs_advance_refl].
  - by eapply wait_advances.
  - split; [done | apply jobs_advance_refl].
Qed.

Lemma submit_grows (name : string) (st : State) :
  let st' := state_of (submit qsub name st) in
  current_index (self st') = S (current_index (self st)) ∧
  (jobs (self st') = jobs (self st)
   ∨ ∃ id o e, jobs (self st') =
       jobs (self st) ++ [Job_init (current_index (self st)) name id o e]).
Proof.
  rewrite submit_eq. destruct (reply qsub name st) as [|out]; simpl.
  - split; [lia | by left].
  - destruct (parsed_job_id out); simpl; (split; [lia|]); eauto.
Qed.

(** Every step is a submission or leaves the counter and all but the
    collected jobs as they were. *)
Lemma step_cases (st st' : State) :
  step qsub cluster st st' →
  other_step cluster st st' ∨ ∃ name, st' = state_of (submit qsub name st).
Proof.
  destruct 1; eauto using other_step.
Qed.

Lemma job_init_ok (i : nat) (name : string) (id : Z) (o e : string) :
  job_ok (Job_init i name id o e).
Proof.
  unfold job_ok, Job_init. simpl. destruct (decide (id = -1)); naive_solver.
Qed.

Lemma job_advance_ok (j j' : Job) : job_advance j j' → job_ok j → job_ok j'.
Proof.
  intros [->|[Hs [text ->]]] [Hiff Hne]; [done|]. unfold job_ok. simpl.
  rewrite Hs in Hiff. split; [|done]. split; [done|]. intros H.
  by apply Hiff in H.
Qed.

Lemma jobs_advance_ok (js js' : list Job) :
  Forall2 job_advance js js' → Forall job_ok js → Forall job_ok js'.
Proof.
  induction 1; intros Hok; [done|]. apply Forall_cons in Hok as [? ?].
  constructor; [by eapply job_advance_ok | auto].
Qed.

Lemma step_ok (st st' : State) :
  step qsub cluster st st' →
  Forall job_ok (jobs (self st)) → Forall job_ok (jobs (self st')).
Proof.
  intros [Ho|[name ->]]%step_cases Hok.
  - apply other_step_advances in Ho as [_ Hj]. by eapply jobs_advance_ok.
  - destruct (submit_grows name st) as [_ [->|(id & o & e & ->)]]; [done|].
    apply Forall_app. split; [done|]. apply Forall_singleton, job_init_ok.
Qed.

Lemma step_counter_ahead (st st' : State) :
  step qsub cluster st st' →
  counter_ahead (self st) → counter_ahead (self st').
Proof.
  unfold counter_ahead. intros [Ho|[name ->]]%step_cases Hok.
  - apply other_step_advances in Ho as [Hc Hj].
    apply jobs_advance_length in Hj. lia.
  - destruct (submit_grows name st) as [Hc [->|(id & o & e & ->)]]; [lia|].
    rewrite length_app. simpl. lia.
Qed.

(** A job that has left [RUNNING] stays as it is, whatever happens. *)
Lemma step_settled (st st' : State) (i : nat) (j : Job) :
  step qsub cluster st st' →
  jobs (self st) !! i = Some j → status j ≠ RUNNING →
  jobs (self st') !! i = Some j.
Proof.
  intros [Ho|[name ->]]%step_cases Hj Hs.
  - apply other_step_advances in Ho as [_ Hadv].
    destruct (jobs_advance_lookup _ _ _ _ Hadv Hj) as (j' & Hj' & Hjj').
    by rewrite (job_advance_settled _ _ Hjj' Hs) in Hj'.
  - destruct (submit_grows name st) as [_ [->|(id & o & e & ->)]]; [done|].
    by apply lookup_app_l_Some.
Qed.

Lemma steps_settled (st st' : State) (i : nat) (j : Job) :
  rtc (step qsub cluster) st st' →
  jobs (self st) !! i = Some j → status j ≠ RUNNING →
  jobs (self st') !! i = Some j.
Proof. induction 1; eauto using step_settled. Qed.

Lemma steps_ok (st st' : State) :
  rtc (step qsub cluster) st st' →
  Forall job_ok (jobs (self st)) → Forall job_ok (jobs (self st')).
Proof. induction 1; eauto using step_ok. Qed.

Lemma steps_counter_ahead (st st' : State) :
  rtc (step qsub cluster) st st' →
  counter_ahead (self st) → counter_ahead (self st').
Proof. induction 1; eauto using step_counter_ahead. Qed.

(** ** wait *)

Lemma wait_unfold (fuel : nat) (st st1 : State) (r : bool) :
  check_finished_jobs st = Returned r st1 →
  wait cluster (S fuel) st =
  if r then Some (Returned tt st1)
  else wait cluster fuel (state_of (time_sleep cluster 1 st1)).
Proof. intros H. simpl. rewrite H. by destruct r. Qed.

(** More fuel does not change what a [wait] that ended gave. *)
Lemma wait_more_fuel (fuel : nat) (st : State) (o : outcome unit) :
  wait cluster fuel st = Some o → wait cluster (S fuel) st = Some o.
Proof.
  revert st. induction fuel as [|fuel IH]; intros st; [done|].
  intros H. simpl in H. change (wait cluster (S (S fuel)) st) with
    (match check_finished_jobs st with
     | Raised e st' => Some (Raised e st')
     | Returned true st' => Some (Returned tt st')
     | Returned false st' =>
         match time_sleep cluster 1 st' with
         | Returned _ st'' => wait cluster (S fuel) st''
         | Raised e st'' => Some (Raised e st'')
         end
     end).
  destruct (check_finished_jobs st) as [[] st1|e st1]; try done.
  by apply IH.
Qed.

Lemma cycle_all_terminal (st st' : State) (r : bool) :
  counter_ahead (self st) →
  check_finished_jobs st = Returned r st' →
  length (jobs (self st')) = current_index (self st') ∧
  (r = true ↔ Forall terminal (jobs (self st'))).
Proof.
  intros Hwf (rs & Hp & ->)%cycle_polls_in_turn.
  destruct (polled_all_terminal _ _ _ _ Hp Hwf) as [Hlen Hiff].
  apply polled_advances in Hp as [Hc _]. split; [congruence | done].
Qed.

Lemma wait_returns_terminal (fuel : nat) (st st' : State) :
  counter_ahead (self st) →
  wait cluster fuel st = Some (Returned tt st') →
  Forall terminal (jobs (self st')).
Proof.
  revert st. induction fuel as [|fuel IH]; intros st Hwf; simpl; [done|].
  pose proof (cycle_all_terminal st) as Hcyc.
  pose proof (cycle_advances st) as [Hc Hj].
  destruct (check_finished_jobs st) as [r st1|e st1]; [|done].
  destruct (Hcyc st1 r Hwf eq_refl) as [Hlen Hiff]. destruct r.
  - intros [= <-]. by apply Hiff.
  - apply IH. unfold counter_ahead. simpl in *. lia.
Qed.

(** A tracker whose jobs are all out of [RUNNING] is not kept waiting. *)
Lemma cycle_when_terminal (st : State) :
  length (jobs (self st)) = current_index (self st) →
  Forall terminal (jobs (self st)) →
  check_finished_jobs st = Returned true st.
Proof.
  intros Hlen Hall. unfold check_finished_jobs, bind, get_self. simpl.
  rewrite <- Hlen. clear Hlen.
  assert (∀ indices, Forall (λ i, i < length (jobs (self st)))%nat indices →
            check_finished_loop indices true st = Returned true st) as Hloop.
  { induction indices as [|i rest IH]; intros Hin; [done|].
    apply Forall_cons in Hin as [Hi Hin]. simpl. unfold bind.
    destruct (lookup_lt_is_Some_2 _ _ Hi) as [j Hj].
    assert (check_for_finish i st = Returned true st) as ->.
    { rewrite Forall_lookup in Hall. specialize (Hall _ _ Hj).
      apply terminal_not_running in Hall.
      destruct (check_for_finish_spec i st); simplify_eq; done. }
    by apply IH. }
  apply Hloop, Forall_forall. intros i Hi%elem_of_seq. lia.
Qed.

End Steps.

(** ** The polls, case by case *)

Lemma poll_settled_eq {L : Locale} (i : nat) (st : State) (j : Job) :
  jobs (self st) !! i = Some j → status j ≠ RUNNING →
  check_for_finish i st = Returned true st.
Proof.
  intros Hj Hs. destruct (check_for_finish_spec i st); simplify_eq; done.
Qed.

Lemma poll_pending_eq {L : Locale} (i : nat) (st : State) (j : Job) :
  jobs (self st) !! i = Some j → status j = RUNNING →
  files (os st) !! output_file j = None ∨ files (os st) !! output_file j = Some "" →
  ∃ evs, check_for_finish i st = Returned false (logged evs st)
         ∧ Forall (λ e, touches_file e = false) evs.
Proof.
  intros Hj Hs Hout.
  destruct (check_for_finish_spec i st); simplify_eq; try done;
    try (destruct Hout; simplify_eq; done).
  all: eexists; split; [done|]; by repeat constructor.
Qed.

Lemma poll_collect_eq {L : Locale}
    (i : nat) (st : State) (j : Job) (bytes text : string) :
  jobs (self st) !! i = Some j → status j = RUNNING →
  files (os st) !! output_file j = Some bytes → bytes ≠ "" →
  files (os st) !! error_file j = None ∨ files (os st) !! error_file j = Some "" →
  text_mode_read bytes = Some text →
  ∃ evs, check_for_finish i st =
         Returned true (collected i (set_status FINISHED (add_output text j))
                                  (output_file j) evs st).
Proof.
  intros Hj Hs Hout Hbytes Herr Htext.
  destruct (check_for_finish_spec i st); simplify_eq; try done;
    try (destruct Herr; simplify_eq; done).
  all: by eexists.
Qed.

(** Bytes that are no text in the locale's encoding: the poll raises, and
    the output file stays; the job stays RUNNING, unless an empty error
    file had it marked FINISHED before the read (line 100). *)
Lemma poll_undecodable_eq {L : Locale}
    (i : nat) (st : State) (j : Job) (bytes : string) :
  jobs (self st) !! i = Some j → status j = RUNNING →
  files (os st) !! output_file j = Some bytes → bytes ≠ "" →
  files (os st) !! error_file j = None ∨ files (os st) !! error_file j = Some "" →
  text_mode_read bytes = None →
  ∃ st', check_for_finish i st = Raised UnicodeDecodeError st'
         ∧ files (os st') = files (os st)
         ∧ jobs (self st') !! i =
           Some (if decide (files (os st) !! error_file j = None)
                 then j else set_status FINISHED j).
Proof.
  intros Hj Hs Hout Hbytes Herr Htext.
  destruct (check_for_finish_spec i st); simplify_eq; try done;
    try (destruct Herr; simplify_eq; done).
  - eexists. split; [done|]. split; [done|]. simpl. by rewrite decide_True.
  - eexists. split; [done|]. split; [done|]. simpl.
    rewrite decide_False by congruence.
    apply list_lookup_insert_eq. by eapply lookup_lt_Some.
Qed.

Lemma poll_unbound_eq {L : Locale} (i : nat) (st : State) (j : Job) (text err : string) :
  jobs (self st) !! i = Some j → status j = RUNNING →
  files (os st) !! output_file j = Some text → text ≠ "" →
  files (os st) !! error_file j = Some err → err ≠ "" →
  check_for_finish i st =
  Raised (NameError "ob")
    (logged [EvIsFile (output_file j); EvSync; EvStat (output_file j);
             EvIsFile (error_file j); EvStat (error_file j)] st).
Proof.
  intros Hj Hs Hout Htext Herr Hne.
  destruct (check_for_finish_spec i st); simplify_eq; done.
Qed.

(** ** The claims *)

(** C1.  A RUNNING job whose output file and error file are both non-empty:
    the poll evaluates the unbound name [ob] (line 97) before it opens the
    error file, so it raises [NameError] having read nothing, captured
    nothing and deleted nothing; it does not return. *)
Lemma diagnostic_merge_raises {L : Locale} :
  check_for_finish 0 diagnostic_state =
  Raised (NameError "ob")
    (logged [EvIsFile "output_0"; EvSync; EvStat "output_0";
             EvIsFile "error_0"; EvStat "error_0"] diagnostic_state)
  ∧ jobs (self diagnostic_state) !! O =
    Some (Job_init 0 "hostname_example.sge" 12345 "output_0" "error_0")
  ∧ files (os diagnostic_state) !! "output_0" = Some "node17"
  ∧ files (os diagnostic_state) !! "error_0" = Some "real 0m0.01s".
Proof. repeat split; vm_compute; reflexivity. Qed.

(** C2.  After the same poll the job is still RUNNING, not FINISHED: the
    assignment of line 104 is never reached. *)
Lemma diagnostic_merge_leaves_running {L : Locale} :
  ∃ e st' j,
    check_for_finish 0 diagnostic_state = Raised e st'
    ∧ jobs (self st') !! O = Some j
    ∧ status j = RUNNING ∧ status j ≠ FINISHED ∧ output_string j = "".
Proof.
  do 3 eexists. split; [by vm_compute|]. by vm_compute.
Qed.

(** C3.  When the submission command cannot be started, [submit] raises the
    [OSError] of [Popen] to its caller: it returns no job, and none is added
    to the tracker. *)
Theorem submit_propagates_spawn_failure
    (qsub : list string → World → popen_result) (name : string) (st : State) :
  reply qsub name st = SpawnFailed →
  ∃ st', submit qsub name st = Raised OSError st'
         ∧ jobs (self st') = jobs (self st)
         ∧ ∀ job st'', submit qsub name st ≠ Returned job st''.
Proof.
  intros H. rewrite submit_eq, H. eexists. split; [done|]. split; [done|].
  intros job st''. discriminate.
Qed.

Lemma submit_propagates_spawn_failure_witness :
  ∃ st', submit qsub_missing "hostname_example.sge" (fresh ∅) = Raised OSError st'
         ∧ jobs (self st') = jobs (self (fresh ∅))
         ∧ ∀ job st'', submit qsub_missing "hostname_example.sge" (fresh ∅)
                       ≠ Returned job st''.
Proof.
  apply (submit_propagates_spawn_failure qsub_missing "hostname_example.sge" (fresh ∅)).
  reflexivity.
Defined.

(** The text holds the marker followed by the digits 12345 and a space,
    yet [submit] raises [ValueError], because [find] stops at an earlier
    occurrence of the marker. *)
Lemma submit_later_marker_raises :
  notice_after_marker =
    "Your job was accepted. " +:+ marker +:+ "12345" +:+ " "
    +:+ "('hostname_example.sge') has been submitted"
  ∧ digit_run "12345"
  ∧ reply qsub_chatty "hostname_example.sge" (fresh ∅) = Completed notice_after_marker
  ∧ submit qsub_chatty "hostname_example.sge" (fresh ∅) =
    Raised ValueError
      (abandoned (submission_argv "hostname_example.sge" 0) (fresh ∅)).
Proof. repeat split; try done. Qed.

(** The marker, first in the text, is followed by a run of 4301 digits and
    a space, and [submit] raises [ValueError]: [int] converts no more than
    4300 digits. *)
Lemma submit_long_digit_run_raises :
  notice_too_long = "" +:+ marker +:+ nines 4301 +:+ " " +:+ ""
  ∧ first_after marker notice_too_long ""
  ∧ digit_run (nines 4301)
  ∧ reply qsub_long "hostname_example.sge" (fresh ∅) = Completed notice_too_long
  ∧ submit qsub_long "hostname_example.sge" (fresh ∅) =
    Raised ValueError
      (abandoned (submission_argv "hostname_example.sge" 0) (fresh ∅)).
Proof.
  split; [reflexivity|]. split; [intros p q _; simpl; lia|].
  split; [split; [discriminate | by vm_compute]|].
  split; [reflexivity|]. by vm_compute.
Qed.

(** C4, as stated, fails twice over: on a text that holds the marker
    followed by the digits 12345 and a space, but after an earlier
    occurrence of the marker, and on a text whose marker is followed by a
    run of 4301 digits and a space, [submit] raises [ValueError] and
    returns no job. *)
Lemma submit_digit_runs_not_parsed :
  (notice_after_marker =
     "Your job was accepted. " +:+ marker +:+ "12345" +:+ " "
     +:+ "('hostname_example.sge') has been submitted"
   ∧ digit_run "12345"
   ∧ reply qsub_chatty "hostname_example.sge" (fresh ∅)
     = Completed notice_after_marker
   ∧ submit qsub_chatty "hostname_example.sge" (fresh ∅) =
     Raised ValueError
       (abandoned (submission_argv "hostname_example.sge" 0) (fresh ∅)))
  ∧ (notice_too_long = "" +:+ marker +:+ nines 4301 +:+ " " +:+ ""
     ∧ digit_run (nines 4301)
     ∧ reply qsub_long "hostname_example.sge" (fresh ∅)
       = Completed notice_too_long
     ∧ submit qsub_long "hostname_example.sge" (fresh ∅) =
       Raised ValueError
         (abandoned (submission_argv "hostname_example.sge" 0) (fresh ∅))).
Proof.
  split; [exact submit_later_marker_raises|].
  destruct submit_long_digit_run_raises as (H1 & _ & H2 & H3 & H4).
  exact (conj H1 (conj H2 (conj H3 H4))).
Qed.

(** C4, amended.  When the first occurrence of the marker in the command's
    output is followed by a run of decimal digits, no more of them than
    [int] converts (4300), and a space, [submit] returns a RUNNING job
    whose id is the number the digits denote; when the marker does not
    occur, it returns a FAILED job with id -1. *)
Theorem submit_parses_job_id
    (qsub : list string → World → popen_result) (name : string) (st : State)
    (out : string) :
  reply qsub name st = Completed out →
  (∀ pre ds post,
     out = pre +:+ marker +:+ ds +:+ " " +:+ post →
     first_after marker out pre → digit_run ds →
     (String.length ds ≤ Py.max_str_digits)%nat →
     ∃ job st', submit qsub name st = Returned job st'
                ∧ job_id job = decimal ds ∧ status job = RUNNING)
  ∧ (¬ occurs marker out →
     ∃ job st', submit qsub name st = Returned job st'
                ∧ job_id job = -1 ∧ status job = FAILED).
Proof.
  intros H. rewrite submit_eq, H. split.
  - intros pre ds post -> Hfirst Hds Hlen.
    rewrite parsed_digit_run by done. do 2 eexists. split; [done|].
    split; [done|]. simpl. pose proof (decimal_nonneg ds).
    by rewrite decide_False by lia.
  - intros Hno. rewrite parsed_absent by done. do 2 eexists. done.
Qed.

Lemma submit_parses_job_id_witness :
  (∃ job st', submit qsub_accepts "hostname_example.sge" (fresh ∅) = Returned job st'
              ∧ job_id job = 12345 ∧ status job = RUNNING)
  ∧ (∃ job st', submit qsub_rejects "hostname_example.sge" (fresh ∅) = Returned job st'
                ∧ job_id job = -1 ∧ status job = FAILED).
Proof.
  split.
  - apply (proj1 (submit_parses_job_id qsub_accepts "hostname_example.sge"
                    (fresh ∅) _ eq_refl)
             "qsub: " "12345" "('hostname_example.sge') has been submitted").
    + reflexivity.
    + apply (find_first_after marker "qsub: "
               "12345 ('hostname_example.sge') has been submitted").
      reflexivity.
    + split; [discriminate | reflexivity].
    + vm_compute. lia.
  - apply (proj2 (submit_parses_job_id qsub_rejects "hostname_example.sge"
                    (fresh ∅) _ eq_refl)).
    apply find_absent. reflexivity.
Defined.

(** C10.  Two outputs that hold the marker but no job id after it: one
    with no space after the marker, one with a word before the next space.
    [submit] raises [ValueError] on both, having moved the counter and
    added no job. *)
Theorem submit_malformed_job_id_raises
    (qsub : list string → World → popen_result) (name : string) (st : State)
    (out : string) :
  reply qsub name st = Completed out →
  out = notice_cut_short ∨ out = notice_without_id →
  occurs marker out
  ∧ submit qsub name st =
    Raised ValueError (abandoned (submission_argv name (current_index (self st))) st)
  ∧ ∀ job st', submit qsub name st ≠ Returned job st'.
Proof.
  intros H Hout. rewrite submit_eq, H.
  assert (parsed_job_id out = None) as -> by (by destruct Hout as [-> | ->]).
  split; [|split; [done | discriminate]].
  destruct Hout as [-> | ->].
  - by exists "", "12345".
  - by exists "", "has been submitted".
Qed.

Lemma submit_malformed_job_id_raises_witness :
  submit (λ _ _, Completed notice_cut_short) "hostname_example.sge" (fresh ∅) =
  Raised ValueError (abandoned (submission_argv "hostname_example.sge" 0) (fresh ∅)).
Proof.
  apply (submit_malformed_job_id_raises (λ _ _, Completed notice_cut_short)
           "hostname_example.sge" (fresh ∅) notice_cut_short eq_refl).
  by left.
Defined.

(** C6, as stated, fails: the job is RUNNING, its output file is not
    empty and it has no error file, yet the poll raises
    [UnicodeDecodeError], because the file holds a byte (255) that is no
    text in the locale's encoding, be it UTF-8 or ASCII.  The job stays
    RUNNING, nothing is captured and the file is not deleted. *)
Lemma poll_undecodable_output_raises :
  jobs (self undecodable_state) !! O =
    Some (Job_init 0 "hostname_example.sge" 12345 "output_0" "error_0")
  ∧ status (Job_init 0 "hostname_example.sge" 12345 "output_0" "error_0")
    = RUNNING
  ∧ files (os undecodable_state) !! "output_0" = Some undecodable_bytes
  ∧ undecodable_bytes ≠ ""
  ∧ files (os undecodable_state) !! "error_0" = None
  ∧ check_for_finish (L:=utf8_locale) 0 undecodable_state =
    Raised UnicodeDecodeError
      (logged [EvIsFile "output_0"; EvSync; EvStat "output_0";
               EvIsFile "error_0"; EvRead "output_0"] undecodable_state)
  ∧ check_for_finish (L:=ascii_locale) 0 undecodable_state =
    Raised UnicodeDecodeError
      (logged [EvIsFile "output_0"; EvSync; EvStat "output_0";
               EvIsFile "error_0"; EvRead "output_0"] undecodable_state).
Proof. repeat split; try done; by vm_compute. Qed.

(** C6, amended.  A RUNNING job with a non-empty output file whose bytes
    are text in the locale's encoding, and no error file or an empty one:
    one poll returns [True], leaves the job FINISHED with the text read
    from the output file (the decoded bytes, line ends read as LF)
    appended to its captured output, and deletes the output file and
    nothing else; a later poll, whatever the files are by then, returns
    [True] and changes nothing, the trace included, so it looks at no
    file. *)
Theorem poll_collects_output {L : Locale}
    (i : nat) (st : State) (j : Job) (bytes text : string) :
  jobs (self st) !! i = Some j → status j = RUNNING →
  files (os st) !! output_file j = Some bytes → bytes ≠ "" →
  text_mode_read bytes = Some text →
  files (os st) !! error_file j = None ∨ files (os st) !! error_file j = Some "" →
  ∃ j' st',
    check_for_finish i st = Returned true st'
    ∧ jobs (self st') !! i = Some j'
    ∧ status j' = FINISHED
    ∧ output_string j' = output_string j +:+ text
    ∧ files (os st') = delete (output_file j) (files (os st))
    ∧ ∀ w, check_for_finish i {| self := self st'; os := w |}
           = Returned true {| self := self st'; os := w |}.
Proof.
  intros Hj Hs Hout Hbytes Htext Herr.
  destruct (poll_collect_eq i st j bytes text) as [evs Hpoll]; try done.
  assert (jobs (self (collected i (set_status FINISHED (add_output text j))
                        (output_file j) evs st)) !! i
          = Some (set_status FINISHED (add_output text j))) as Hj'.
  { simpl. apply list_lookup_insert_eq. by eapply lookup_lt_Some. }
  do 2 eexists. split; [exact Hpoll|]. split; [exact Hj'|].
  repeat split. intros w. by eapply poll_settled_eq.
Qed.

Lemma poll_collects_output_witness :
  ∃ j' st',
    check_for_finish (L:=ascii_locale) 0 crlf_state = Returned true st'
    ∧ jobs (self st') !! O = Some j'
    ∧ status j' = FINISHED
    ∧ output_string j' = "" +:+ String "n" (String "1" (String "010" ""))
    ∧ files (os st') = delete "output_0" (files (os crlf_state))
    ∧ ∀ w, check_for_finish (L:=ascii_locale) 0 {| self := self st'; os := w |}
           = Returned true {| self := self st'; os := w |}.
Proof.
  apply (poll_collects_output (L:=ascii_locale) 0 crlf_state
           (Job_init 0 "hostname_example.sge" 12345 "output_0" "error_0")
           crlf_bytes (String "n" (String "1" (String "010" "")))).
  - reflexivity.
  - reflexivity.
  - reflexivity.
  - discriminate.
  - reflexivity.
  - left. reflexivity.
Defined.

(** C9.  A RUNNING job whose output file is absent, or present and of
    length zero: the poll returns [False], leaves the tracker (so the
    job's status and captured output) and every file as they were, and
    neither reads nor deletes a file. *)
Theorem poll_pending_changes_nothing {L : Locale} (i : nat) (st : State) (j : Job) :
  jobs (self st) !! i = Some j → status j = RUNNING →
  files (os st) !! output_file j = None ∨ files (os st) !! output_file j = Some "" →
  ∃ st' evs,
    check_for_finish i st = Returned false st'
    ∧ self st' = self st
    ∧ jobs (self st') !! i = Some j
    ∧ files (os st') = files (os st)
    ∧ trace (os st') = trace (os st) ++ evs
    ∧ ∀ path, (EvRemove path ∉ evs) ∧ (EvRead path ∉ evs).
Proof.
  intros Hj Hs Hout.
  destruct (poll_pending_eq i st j Hj Hs Hout) as (evs & Hpoll & Hevs).
  exists (logged evs st), evs. repeat split; try done.
  all: intros Hin; rewrite Forall_forall in Hevs; by apply Hevs in Hin.
Qed.

Lemma poll_pending_changes_nothing_witness :
  ∃ st' evs,
    check_for_finish (L:=ascii_locale) 0 one_running = Returned false st'
    ∧ self st' = self one_running
    ∧ jobs (self st') !! O =
      Some (Job_init 0 "hostname_example.sge" 12345 "output_0" "error_0")
    ∧ files (os st') = files (os one_running)
    ∧ trace (os st') = trace (os one_running) ++ evs
    ∧ ∀ path, (EvRemove path ∉ evs) ∧ (EvRead path ∉ evs).
Proof.
  apply (poll_pending_changes_nothing (L:=ascii_locale) 0 one_running
           (Job_init 0 "hostname_example.sge" 12345 "output_0" "error_0")).
  - reflexivity.
  - reflexivity.
  - left. reflexivity.
Defined.

Section Lifecycle.

Context {L : Locale}.

Variable qsub : list string → World → popen_result.
Variable cluster : World → gmap string string.

Lemma reachable_ok (fs : gmap string string) (st : State) :
  rtc (step qsub cluster) (fresh fs) st → Forall job_ok (jobs (self st)).
Proof. intros H. by eapply steps_ok. Qed.

Lemma reachable_counter_ahead (fs : gmap string string) (st : State) :
  rtc (step qsub cluster) (fresh fs) st → counter_ahead (self st).
Proof. intros H. eapply steps_counter_ahead; [done|]. unfold counter_ahead. simpl. lia. Qed.

(** No job of a tracker ever has status ERROR: none is made with it, and
    a poll only ever assigns FINISHED. *)
Lemma status_never_ERROR (fs : gmap string string) (st : State) (j : Job) :
  rtc (step qsub cluster) (fresh fs) st → j ∈ jobs (self st) → status j ≠ ERROR.
Proof.
  intros Hr Hj. apply reachable_ok in Hr. rewrite Forall_forall in Hr.
  by apply Hr.
Qed.

(** C5.  A submission whose output lacks the marker returns a job that is
    FAILED with id -1; whatever the tracker and the cluster do afterwards,
    the job stays as it was made, and a poll of it returns [True] leaving
    the state, trace included, as it was: no file is looked at.  In every
    state a tracker can reach, a job is FAILED exactly when its id is -1. *)
Theorem failed_submission_is_final
    (fs : gmap string string) (name : string) (st : State) (out : string) :
  rtc (step qsub cluster) (fresh fs) st →
  reply qsub name st = Completed out → ¬ occurs marker out →
  ∃ job st',
    submit qsub name st = Returned job st'
    ∧ status job = FAILED ∧ job_id job = -1
    ∧ jobs (self st') !! length (jobs (self st)) = Some job
    ∧ ∀ st'', rtc (step qsub cluster) st' st'' →
        jobs (self st'') !! length (jobs (self st)) = Some job
        ∧ check_for_finish (length (jobs (self st))) st'' = Returned true st''
        ∧ ∀ j, j ∈ jobs (self st'') → (status j = FAILED ↔ job_id j = -1).
Proof.
  intros Hreach Hreply Hno.
  pose proof (step_submit qsub cluster name st) as Hstep.
  rewrite submit_eq, Hreply, parsed_absent in * by done. simpl in Hstep.
  do 2 eexists. split; [done|]. split; [done|]. split; [done|].
  assert (jobs (self (submitted (submission_argv name (current_index (self st)))
             (Job_init (current_index (self st)) name (-1)
                ("output_" +:+ Py.str_nat (current_index (self st)))
                ("error_" +:+ Py.str_nat (current_index (self st)))) st))
          !! length (jobs (self st))
          = Some (Job_init (current_index (self st)) name (-1)
                ("output_" +:+ Py.str_nat (current_index (self st)))
                ("error_" +:+ Py.str_nat (current_index (self st))))) as Hj.
  { simpl. by rewrite lookup_app_r, Nat.sub_diag by lia. }
  split; [exact Hj|]. intros st'' Hsteps.
  pose proof (steps_settled qsub cluster _ _ _ _ Hsteps Hj) as Hj''.
  specialize (Hj'' ltac:(done)).
  split; [done|]. split; [by eapply poll_settled_eq|].
  assert (rtc (step qsub cluster) (fresh fs) st'') as Hreach''.
  { etrans; [|exact Hsteps]. eapply rtc_r; [exact Hreach|exact Hstep]. }
  apply reachable_ok in Hreach''. rewrite Forall_forall in Hreach''.
  intros j Hin. by apply Hreach''.
Qed.

End Lifecycle.

Lemma failed_submission_is_final_witness :
  ∃ job st',
    submit qsub_rejects "hostname_example.sge" (fresh ∅) = Returned job st'
    ∧ status job = FAILED ∧ job_id job = -1
    ∧ jobs (self st') !! O = Some job
    ∧ ∀ st'', rtc (step (L:=ascii_locale) qsub_rejects idle_cluster) st' st'' →
        jobs (self st'') !! O = Some job
        ∧ check_for_finish (L:=ascii_locale) 0 st'' = Returned true st''
        ∧ ∀ j, j ∈ jobs (self st'') → (status j = FAILED ↔ job_id j = -1).
Proof.
  apply (failed_submission_is_final (L:=ascii_locale) qsub_rejects idle_cluster ∅
           "hostname_example.sge" (fresh ∅) "Unable to run job: denied").
  - apply rtc_refl.
  - reflexivity.
  - apply find_absent. reflexivity.
Defined.

Lemma job_advance_identity (j j' : Job) :
  job_advance j j' →
  index j' = index j ∧ sge_script j' = sge_script j
  ∧ output_file j' = output_file j ∧ error_file j' = error_file j.
Proof. by intros [->|[_ [text ->]]]. Qed.

Lemma jobs_advance_placed (names : list string) (js js' : list Job) :
  Forall2 job_advance js js' → placed names js → placed names js'.
Proof.
  intros Hadv Hp i j' Hj'.
  destruct (Forall2_lookup_r _ _ _ _ _ Hadv Hj') as (j & Hj & Hjj').
  apply job_advance_identity in Hjj' as (-> & -> & -> & ->). by apply Hp.
Qed.

Section Waiting.

Context {L : Locale}.

Variable qsub : list string → World → popen_result.
Variable cluster : World → gmap string string.

(** C8.  After [n] submissions that returned, with anything else in
    between: the tracker holds [n] jobs, the counter is [n], and the job
    at each place [i] has index [i], the script submitted [i]-th and the
    paths "output_i" and "error_i". *)
Theorem completed_submissions_are_indexed
    (n : nat) (names : list string) (st : State) :
  completed qsub cluster n names st →
  length (jobs (self st)) = n
  ∧ current_index (self st) = length (jobs (self st))
  ∧ length names = n
  ∧ placed names (jobs (self st)).
Proof.
  induction 1 as [fs|n names st name job st' _ (Hlen & Hc & Hn & Hp) Hsub
                 |n names st st' _ (Hlen & Hc & Hn & Hp) Hother].
  - split; [done|]. split; [done|]. split; [done|]. by intros i j.
  - rewrite submit_eq in Hsub. destruct (reply qsub name st) as [|out]; [done|].
    destruct (parsed_job_id out) as [id|]; [|done]. simpl in Hsub.
    injection Hsub as <- <-. simpl. rewrite !length_app. simpl.
    split; [lia|]. split; [lia|]. split; [lia|].
    intros i j Hj. apply lookup_app_Some in Hj as [Hj|[Hi Hj]].
    + destruct (Hp i j Hj) as (? & Hname & ? & ?).
      repeat split; try done. by apply lookup_app_l_Some.
    + apply list_lookup_singleton_Some in Hj as [Hi0 <-].
      assert (i = current_index (self st)) as -> by lia. simpl.
      repeat split; try done.
      rewrite lookup_app_r by lia.
      by replace (current_index (self st) - length names)%nat with O by lia.
  - apply other_step_advances in Hother as [Hc' Hadv].
    pose proof (jobs_advance_length _ _ Hadv).
    split; [congruence|]. split; [congruence|]. split; [done|].
    by eapply jobs_advance_placed.
Qed.

(** C7.  For a tracker whose counter is not behind its list (every
    reachable one).  A cycle that returns has polled every place below the
    counter in ascending order, each poll run to its return, and answers
    [True] exactly when every poll did, which is exactly when every job is
    then FAILED, FINISHED or ERROR; [wait] returns after the first cycle
    that answers [True] and sleeps and goes on after one that answers
    [False].  So when [wait] returns every job is terminal, and when every
    job is terminal [wait] returns at once. *)
Theorem wait_returns_when_all_terminal (st : State) :
  counter_ahead (self st) →
  (∀ r st1, check_finished_jobs st = Returned r st1 →
     (∃ rs, polled_in_turn (seq 0 (current_index (self st))) st rs st1
            ∧ length rs = current_index (self st)
            ∧ r = forallb id rs)
     ∧ (r = true ↔ Forall terminal (jobs (self st1)))
     ∧ ∀ fuel, wait cluster (S fuel) st =
               if r then Some (Returned tt st1)
               else wait cluster fuel (state_of (time_sleep cluster 1 st1)))
  ∧ (∀ fuel st', wait cluster fuel st = Some (Returned tt st') →
       Forall terminal (jobs (self st')))
  ∧ (length (jobs (self st)) = current_index (self st) →
     Forall terminal (jobs (self st)) →
     ∀ fuel, wait cluster (S fuel) st = Some (Returned tt st)).
Proof.
  intros Hwf. split; [|split].
  - intros r st1 Hcyc. split; [|split].
    + apply cycle_polls_in_turn in Hcyc as (rs & Hp & ->).
      exists rs. split; [done|]. split; [|done].
      apply polled_length in Hp. by rewrite Hp, length_seq.
    + by apply (cycle_all_terminal st st1 r Hwf).
    + intros fuel. by apply wait_unfold.
  - intros fuel st'. by apply wait_returns_terminal.
  - intros Hlen Hall fuel.
    by rewrite (wait_unfold cluster fuel st st true (cycle_when_terminal st Hlen Hall)).
Qed.

End Waiting.

Lemma completed_submissions_are_indexed_witness :
  let st := state_of (submit qsub_accepts "second.sge"
                        (state_of (submit qsub_accepts "first.sge" (fresh ∅)))) in
  length (jobs (self st)) = 2%nat
  ∧ current_index (self st) = length (jobs (self st))
  ∧ length ["first.sge"; "second.sge"] = 2%nat
  ∧ placed ["first.sge"; "second.sge"] (jobs (self st)).
Proof.
  apply (completed_submissions_are_indexed (L:=ascii_locale) qsub_accepts idle_cluster 2
           ([] ++ ["first.sge"] ++ ["second.sge"])).
  eapply (completed_submit _ _ 1 ([] ++ ["first.sge"])
            (state_of (submit qsub_accepts "first.sge" (fresh ∅))));
    [|vm_compute; reflexivity].
  eapply (completed_submit _ _ 0 [] (fresh ∅)); [|vm_compute; reflexivity].
  apply completed_fresh.
Defined.

Lemma wait_returns_when_all_terminal_witness :
  wait (L:=ascii_locale) idle_cluster 1 one_finished = Some (Returned tt one_finished).
Proof.
  assert (counter_ahead (self one_finished)) as Hwf
    by (unfold counter_ahead; vm_compute; lia).
  apply (λ Hlen Hall,
           proj2 (proj2 (wait_returns_when_all_terminal (L:=ascii_locale)
                           idle_cluster one_finished Hwf))
             Hlen Hall O).
  - reflexivity.
  - vm_compute. constructor; [right; left; reflexivity | constructor].
Defined.
(** * Further properties *)

(** ** Reporting *)

Lemma logged_logged (evs evs' : list event) (st : State) :
  logged evs' (logged evs st) = logged (evs ++ evs') st.
Proof. unfold logged. simpl. by rewrite app_assoc. Qed.

Lemma logged_nil (st : State) : logged [] st = st.
Proof. unfold logged. rewrite app_nil_r. by destruct st as [? []]. Qed.

Lemma print_job_eq (i : nat) (print_output : bool) (st : State) :
  print_job i print_output st =
  match jobs (self st) !! i with
  | Some j => Returned tt (logged (job_lines print_output j) st)
  | None => Raised IndexError st
  end.
Proof.
  unfold print_job, jobs_at, print, log, bind, ret, raise, get_self, get_os,
    put_os, job_lines, logged. simpl.
  destruct (jobs (self st) !! i) as [j|]; [|done]. simpl.
  destruct print_output; simpl; [|done].
  destruct (status j); simpl; try done; by rewrite <- app_assoc.
Qed.

Lemma print_results_loop_eq (n a : nat) (print_output : bool) (st : State) :
  (a ≤ length (jobs (self st)))%nat →
  print_results_loop (seq a n) print_output st =
  (if decide (a + n ≤ length (jobs (self st)))%nat
   then Returned tt else Raised IndexError)
    (logged (report print_output (take n (drop a (jobs (self st))))) st).
Proof.
  revert a st. induction n as [|n IH]; intros a st Ha; simpl.
  - rewrite decide_True by lia. unfold ret, report. simpl. by rewrite logged_nil.
  - unfold bind. rewrite print_job_eq.
    destruct (jobs (self st) !! a) as [j|] eqn:Hj.
    + assert (a < length (jobs (self st)))%nat as Hlt by (by eapply lookup_lt_Some).
      rewrite IH by (simpl; lia). simpl. rewrite logged_logged.
      rewrite (drop_S _ j a Hj). simpl.
      repeat case_decide; (done || lia).
    + apply lookup_ge_None in Hj. rewrite decide_False by lia.
      rewrite drop_ge by done. unfold report. simpl. by rewrite logged_nil.
Qed.

(** What [print_results] prints and how it ends. *)
Lemma print_results_eq (print_output : bool) (st : State) :
  print_results print_output st =
  (if decide (current_index (self st) ≤ length (jobs (self st)))%nat
   then Returned tt else Raised IndexError)
    (logged (report print_output (take (current_index (self st)) (jobs (self st))))
       st).
Proof.
  unfold print_results, bind, get_self. simpl.
  by rewrite print_results_loop_eq, drop_0 by lia.
Qed.

(** X10.  [print_results] changes neither the tracker nor a file and only
    prints.  When the counter is within the list it returns, having
    printed, job after job in the order of the list, the summary of each
    of the first [current_index] jobs, followed by its captured output
    when output is asked for and the job is FINISHED or ERROR, never for a
    FAILED or RUNNING job; when the counter is ahead of the list it prints
    the report of every job and then raises [IndexError]. *)
Theorem print_results_report (print_output : bool) (st : State) :
  print_results print_output st =
  (if decide (current_index (self st) ≤ length (jobs (self st)))%nat
   then Returned tt else Raised IndexError)
    (logged (report print_output (take (current_index (self st)) (jobs (self st))))
       st).
Proof. apply print_results_eq. Qed.

(** ** One poll and the rest of the world *)

(** X5.  A poll leaves the counter and every other job as they were, and
    the files too, but for the output file of its own job, which it may
    delete: it creates no file, changes no text and deletes no error
    file. *)
Theorem poll_touches_only_its_output {L : Locale} (i : nat) (st : State) :
  let st' := state_of (check_for_finish i st) in
  current_index (self st') = current_index (self st)
  ∧ (∀ k, k ≠ i → jobs (self st') !! k = jobs (self st) !! k)
  ∧ (files (os st') = files (os st)
     ∨ ∃ j, jobs (self st) !! i = Some j ∧ status j = RUNNING
            ∧ files (os st') = delete (output_file j) (files (os st))).
Proof.
  split; [apply poll_advances|]. split; [intros k Hk; by apply poll_other_places|].
  destruct (check_for_finish_spec i st); simpl; eauto.
Qed.

Section Invariants.

Context {L : Locale}.

Variable qsub : list string → World → popen_result.
Variable cluster : World → gmap string string.

(** A step appends one new job or lets the jobs advance in place. *)
Lemma step_jobs (st st' : State) :
  step qsub cluster st st' →
  Forall2 job_advance (jobs (self st)) (jobs (self st'))
  ∨ ∃ name id o e,
      jobs (self st') =
      jobs (self st) ++ [Job_init (current_index (self st)) name id o e].
Proof.
  intros [Ho|[name ->]]%step_cases.
  - left. by apply other_step_advances in Ho as [_ ?].
  - destruct (submit_grows qsub name st) as [_ [->|(id & o & e & ->)]].
    + left. apply jobs_advance_refl.
    + right. eauto.
Qed.

(** What holds of a job when it is made and survives its collection holds
    of every job of every state that can be reached. *)
Lemma steps_invariant (P : Job → Prop) (st st' : State) :
  (∀ i name id o e, P (Job_init i name id o e)) →
  (∀ j j', job_advance j j' → P j → P j') →
  rtc (step qsub cluster) st st' →
  Forall P (jobs (self st)) → Forall P (jobs (self st')).
Proof.
  intros Hinit Hadv. induction 1 as [|st st1 st2 Hstep _ IH]; [done|].
  intros HP. apply IH. destruct (step_jobs _ _ Hstep) as [H|(name & id & o & e & ->)].
  - clear IH Hstep. induction H; [done|]. apply Forall_cons in HP as [? ?].
    constructor; eauto.
  - apply Forall_app. split; [done|]. by apply Forall_singleton.
Qed.

Lemma steps_advance (st st' : State) (i : nat) (j : Job) :
  rtc (step qsub cluster) st st' →
  jobs (self st) !! i = Some j →
  ∃ j', jobs (self st') !! i = Some j' ∧ job_advance j j'.
Proof.
  intros Hsteps. revert j. induction Hsteps as [|st st1 st2 Hstep _ IH]; intros j Hj.
  - exists j. split; [done | apply job_advance_refl].
  - destruct (step_jobs _ _ Hstep) as [H|(name & id & o & e & E)].
    + destruct (jobs_advance_lookup _ _ _ _ H Hj) as (j1 & Hj1 & Hadv1).
      destruct (IH _ Hj1) as (j2 & Hj2 & Hadv2).
      exists j2. split; [done | by eapply job_advance_trans].
    + apply IH. rewrite E. by apply lookup_app_l_Some.
Qed.

(** X2.  Whatever happens to a tracker, a job keeps its place in the list
    and is either as it was or has moved from RUNNING to FINISHED, its
    index, id, script and paths unchanged and its captured output extended
    once. *)
Theorem jobs_only_advance (st st' : State) (i : nat) (j : Job) :
  rtc (step qsub cluster) st st' →
  jobs (self st) !! i = Some j →
  ∃ j', jobs (self st') !! i = Some j'
        ∧ index j' = index j ∧ job_id j' = job_id j
        ∧ sge_script j' = sge_script j
        ∧ output_file j' = output_file j ∧ error_file j' = error_file j
        ∧ (j' = j
           ∨ status j = RUNNING ∧ status j' = FINISHED
             ∧ ∃ text, output_string j' = output_string j +:+ text).
Proof.
  intros Hsteps Hj. destruct (steps_advance _ _ _ _ Hsteps Hj) as (j' & Hj' & Hadv).
  exists j'. split; [done|]. destruct Hadv as [->|[Hs [text ->]]].
  - repeat split; by left.
  - repeat split. right. simpl. eauto.
Qed.

(** X1.  No call on a tracker and no write of the cluster ever gives a
    job the status ERROR: when no job has it before, none has it after. *)
Theorem status_ERROR_is_never_assigned (st st' : State) :
  rtc (step qsub cluster) st st' →
  Forall (λ j, status j ≠ ERROR) (jobs (self st)) →
  Forall (λ j, status j ≠ ERROR) (jobs (self st')).
Proof.
  apply steps_invariant.
  - intros i name id o e. simpl. by destruct (decide (id = -1)).
  - by intros j j' [->|[_ [text ->]]].
Qed.

(** X3.  In every state a fresh tracker can reach, a job that is FAILED or
    RUNNING has no captured output. *)
Theorem unfinished_jobs_have_no_output
    (fs : gmap string string) (st : State) (j : Job) :
  rtc (step qsub cluster) (fresh fs) st →
  j ∈ jobs (self st) →
  status j = FAILED ∨ status j = RUNNING → output_string j = "".
Proof.
  intros Hsteps Hj.
  assert (Forall job_quiet (jobs (self st))) as Hall.
  { eapply steps_invariant; [| |exact Hsteps|by constructor].
    - intros i name id o e. by intros _.
    - intros a b [->|[_ [text ->]]] Ha; [done|]. intros [|]; done. }
  rewrite Forall_forall in Hall. by apply Hall.
Qed.

Lemma step_counter_leaked (st st' : State) :
  step qsub cluster st st' →
  counter_leaked (self st) → counter_leaked (self st').
Proof.
  unfold counter_leaked. intros [Ho|[name ->]]%step_cases Hl.
  - apply other_step_advances in Ho as [Hc Hj].
    apply jobs_advance_length in Hj. lia.
  - destruct (submit_grows qsub name st) as [Hc [->|(id & o & e & ->)]]; [lia|].
    rewrite length_app. simpl. lia.
Qed.

Lemma cycle_leaked_raises (st : State) (r : bool) (st' : State) :
  counter_leaked (self st) → check_finished_jobs st ≠ Returned r st'.
Proof.
  unfold counter_leaked. intros Hl (rs & Hp & _)%cycle_polls_in_turn.
  destruct (polled_all_terminal _ _ _ _ Hp) as [Hlen _]; [lia|].
  apply polled_advances in Hp as [_ Hadv]. apply jobs_advance_length in Hadv. lia.
Qed.

(** X4.  [submit] moves the counter before it runs the command, so a
    submission that raises leaves the counter ahead of the list for good:
    from then on every cycle raises, so [wait] raises in its first cycle,
    and [print_results] raises [IndexError], whatever is submitted, polled
    or written in between. *)
Theorem raised_submission_breaks_tracker
    (name : string) (st st1 st2 : State) (e : exn) :
  counter_ahead (self st) →
  submit qsub name st = Raised e st1 →
  rtc (step qsub cluster) st1 st2 →
  counter_leaked (self st2)
  ∧ (∃ e' st3, check_finished_jobs st2 = Raised e' st3)
  ∧ (∀ fuel, ∃ e' st3, wait cluster (S fuel) st2 = Some (Raised e' st3))
  ∧ ∀ print_output, ∃ st3, print_results print_output st2 = Raised IndexError st3.
Proof.
  intros Hwf Hsub Hsteps.
  assert (counter_leaked (self st1)) as Hl1.
  { rewrite submit_eq in Hsub. unfold counter_leaked, counter_ahead in *.
    destruct (reply qsub name st) as [|out].
    - injection Hsub as _ <-. simpl. lia.
    - destruct (parsed_job_id out); [done|]. injection Hsub as _ <-. simpl. lia. }
  assert (counter_leaked (self st2)) as Hl2.
  { clear Hsub. induction Hsteps; eauto using step_counter_leaked. }
  assert (∃ e' st3, check_finished_jobs st2 = Raised e' st3) as (e' & st3 & Hcyc).
  { pose proof (cycle_leaked_raises st2) as Hcyc.
    destruct (check_finished_jobs st2) as [r st'|e' st']; [|eauto].
    by destruct (Hcyc r st' Hl2). }
  split; [done|]. split; [eauto|]. split.
  - intros fuel. exists e', st3. simpl. by rewrite Hcyc.
  - intros po. rewrite print_results_eq. unfold counter_leaked in Hl2.
    rewrite decide_False by lia. eauto.
Qed.

End Invariants.

Lemma status_ERROR_is_never_assigned_witness :
  Forall (λ j, status j ≠ ERROR) (jobs (self one_finished)).
Proof.
  apply (status_ERROR_is_never_assigned (L:=ascii_locale) qsub_accepts idle_cluster
           clean_state one_finished).
  - apply rtc_once, step_poll.
  - repeat constructor. discriminate.
Defined.

Lemma jobs_only_advance_witness :
  ∃ j', jobs (self one_finished) !! O = Some j'
        ∧ index j' = O ∧ job_id j' = 12345
        ∧ sge_script j' = "hostname_example.sge"
        ∧ output_file j' = "output_0" ∧ error_file j' = "error_0"
        ∧ (j' = Job_init 0 "hostname_example.sge" 12345 "output_0" "error_0"
           ∨ RUNNING = RUNNING ∧ status j' = FINISHED
             ∧ ∃ text, output_string j' = "" +:+ text).
Proof.
  apply (jobs_only_advance (L:=ascii_locale) qsub_accepts idle_cluster
           clean_state one_finished 0
           (Job_init 0 "hostname_example.sge" 12345 "output_0" "error_0")).
  - apply rtc_once, step_poll.
  - reflexivity.
Defined.

Lemma unfinished_jobs_have_no_output_witness :
  Forall (λ j, status j = FAILED ∨ status j = RUNNING → output_string j = "")
    (jobs (self one_running)).
Proof.
  apply Forall_forall. intros j.
  apply (unfinished_jobs_have_no_output (L:=ascii_locale) qsub_accepts idle_cluster
           ∅ one_running j).
  apply rtc_once, step_submit.
Defined.

Lemma raised_submission_breaks_tracker_witness :
  let st := state_of (submit qsub_missing "hostname_example.sge" (fresh ∅)) in
  counter_leaked (self st)
  ∧ (∃ e' st3, check_finished_jobs (L:=ascii_locale) st = Raised e' st3)
  ∧ (∀ fuel, ∃ e' st3,
       wait (L:=ascii_locale) idle_cluster (S fuel) st = Some (Raised e' st3))
  ∧ ∀ print_output, ∃ st3, print_results print_output st = Raised IndexError st3.
Proof.
  apply (raised_submission_breaks_tracker (L:=ascii_locale) qsub_missing idle_cluster
           "hostname_example.sge" (fresh ∅)
           (state_of (submit qsub_missing "hostname_example.sge" (fresh ∅)))
           (state_of (submit qsub_missing "hostname_example.sge" (fresh ∅)))
           OSError).
  - unfold counter_ahead. simpl. lia.
  - reflexivity.
  - apply rtc_refl.
Defined.

(** ** The word after the marker *)

Lemma find_space_after_word (w post : string) (i : Z) :
  spaceless w = true →
  Py.find_from " " (w +:+ " " +:+ post) i = i + Py.len w.
Proof.
  revert i. induction w as [|c w IH]; intros i Hw.
  - rewrite app_empty_l, find_from_hit by apply startswith_app.
    unfold Py.len. simpl. lia.
  - simpl in Hw. apply andb_prop in Hw as [Hc Hw].
    apply bool_decide_eq_true in Hc.
    simpl. rewrite decide_False by congruence.
    rewrite IH by done. unfold Py.len. simpl String.length. lia.
Qed.

Lemma find_space_spaceless (w : string) (i : Z) :
  spaceless w = true → Py.find_from " " w i = -1.
Proof.
  revert i. induction w as [|c w IH]; intros i Hw; [done|].
  simpl in Hw. apply andb_prop in Hw as [Hc Hw].
  apply bool_decide_eq_true in Hc.
  simpl. rewrite decide_False by congruence. by apply IH.
Qed.

Lemma parsed_word (pre w post : string) :
  let out := pre +:+ marker +:+ w +:+ " " +:+ post in
  first_after marker out pre → spaceless w = true →
  parsed_job_id out = Py.int w.
Proof.
  intros out Hfirst Hw. unfold parsed_job_id, Py.find, out.
  rewrite find_from_first by done.
  pose proof (len_nonneg pre).
  rewrite decide_False by lia.
  replace (0 + Py.len pre + Py.len marker) with (Py.len (pre +:+ marker))
    by (rewrite len_app; lia).
  rewrite <- (app_assoc_s pre marker).
  rewrite slice_from. rewrite find_space_after_word by done.
  rewrite Z.add_0_l. by rewrite slice_between.
Qed.

Section Parsing.

Variable qsub : list string → World → popen_result.

(** X7.  When the first occurrence of the marker is followed by a word and
    a space, the job id is what [int] makes of that word, sign,
    underscores and leading zeros included; when [int] rejects the word,
    as no literal or as one of more than 4300 digits, [submit] raises
    [ValueError] and adds no job. *)
Theorem submit_reads_word_after_marker
    (name : string) (st : State) (pre w post : string) :
  reply qsub name st = Completed (pre +:+ marker +:+ w +:+ " " +:+ post) →
  first_after marker (pre +:+ marker +:+ w +:+ " " +:+ post) pre →
  spaceless w = true →
  let i := current_index (self st) in
  let argv := submission_argv name i in
  submit qsub name st =
  match Py.int w with
  | Some id =>
      let job := Job_init i name id ("output_" +:+ Py.str_nat i)
                          ("error_" +:+ Py.str_nat i) in
      Returned job (submitted argv job st)
  | None => Raised ValueError (abandoned argv st)
  end.
Proof.
  intros Hreply Hfirst Hw. simpl. rewrite submit_eq, Hreply.
  by rewrite parsed_word.
Qed.

(** X8.  When no space follows the first occurrence of the marker,
    whatever follows it, [submit] raises [ValueError]: the slice handed to
    [int] is empty. *)
Theorem submit_without_space_raises
    (name : string) (st : State) (pre rest : string) :
  reply qsub name st = Completed (pre +:+ marker +:+ rest) →
  first_after marker (pre +:+ marker +:+ rest) pre →
  spaceless rest = true →
  submit qsub name st =
  Raised ValueError (abandoned (submission_argv name (current_index (self st))) st).
Proof.
  intros Hreply Hfirst Hrest. rewrite submit_eq, Hreply.
  rewrite parsed_no_space; [done|done|].
  apply find_absent. by apply find_space_spaceless.
Qed.

End Parsing.

Lemma submit_reads_word_after_marker_witness :
  submit qsub_signed "hostname_example.sge" (fresh ∅) =
  Returned (Job_init 0 "hostname_example.sge" (-1) "output_0" "error_0")
    (submitted (submission_argv "hostname_example.sge" 0)
       (Job_init 0 "hostname_example.sge" (-1) "output_0" "error_0") (fresh ∅)).
Proof.
  apply (submit_reads_word_after_marker qsub_signed "hostname_example.sge"
           (fresh ∅) "" "-1" "('hostname_example.sge') has been submitted").
  - reflexivity.
  - intros p q _. simpl. lia.
  - reflexivity.
Defined.

Lemma submit_without_space_raises_witness :
  submit (λ _ _, Completed notice_cut_short) "hostname_example.sge" (fresh ∅) =
  Raised ValueError (abandoned (submission_argv "hostname_example.sge" 0) (fresh ∅)).
Proof.
  apply (submit_without_space_raises (λ _ _, Completed notice_cut_short)
           "hostname_example.sge" (fresh ∅) "" "12345").
  - reflexivity.
  - intros p q _. simpl. lia.
  - reflexivity.
Defined.

(** ** Paths *)

Lemma placed_paths (names : list string) (js : list Job) (i k : nat) (j j' : Job) :
  placed names js → js !! i = Some j → js !! k = Some j' →
  output_file j ≠ error_file j'
  ∧ (i ≠ k → output_file j ≠ output_file j' ∧ error_file j ≠ error_file j').
Proof.
  intros Hp Hj Hj'. unfold placed in Hp.
  destruct (Hp i j Hj) as (? & ? & Ho & He).
  destruct (Hp k j' Hj') as (? & ? & Ho' & He').
  rewrite Ho, He, Ho', He'. unfold Py.str_nat.
  split; [discriminate|]. intros Hne.
  split; intros [= E]; apply Hne; by apply (inj pretty).
Qed.

Section Placing.

Context {L : Locale}.

Variable qsub : list string → World → popen_result.
Variable cluster : World → gmap string string.

Lemma submit_returned_placed
    (names : list string) (name : string) (st st' : State) (job : Job) :
  placed names (jobs (self st)) →
  current_index (self st) = length (jobs (self st)) →
  length names = length (jobs (self st)) →
  submit qsub name st = Returned job st' →
  jobs (self st') = jobs (self st) ++ [job]
  ∧ current_index (self st') = length (jobs (self st'))
  ∧ placed (names ++ [name]) (jobs (self st')).
Proof.
  intros Hp Hc Hn Hsub. rewrite submit_eq in Hsub.
  destruct (reply qsub name st) as [|out]; [done|].
  destruct (parsed_job_id out) as [id|]; [|done]. simpl in Hsub.
  injection Hsub as <- <-. simpl. rewrite !length_app. simpl.
  split; [done|]. split; [lia|].
  intros i j Hj. apply lookup_app_Some in Hj as [Hj|[Hi Hj]].
  - destruct (Hp i j Hj) as (? & Hname & ? & ?).
    repeat split; try done. by apply lookup_app_l_Some.
  - apply list_lookup_singleton_Some in Hj as [Hi0 <-].
    assert (i = current_index (self st)) as -> by lia. simpl.
    repeat split; try done.
    rewrite lookup_app_r by lia.
    by replace (current_index (self st) - length names)%nat with O by lia.
Qed.

Lemma completed_placed (n : nat) (names : list string) (st : State) :
  completed qsub cluster n names st →
  current_index (self st) = length (jobs (self st))
  ∧ length names = length (jobs (self st))
  ∧ placed names (jobs (self st)).
Proof.
  induction 1 as [fs|n names st name job st' _ (Hc & Hn & Hp) Hsub
                 |n names st st' _ (Hc & Hn & Hp) Hother].
  - split; [done|]. split; [done|]. by intros i j.
  - destruct (submit_returned_placed _ _ _ _ _ Hp Hc Hn Hsub) as (E & Hc' & Hp').
    split; [done|]. split; [|done]. rewrite E, !length_app. simpl. lia.
  - apply other_step_advances in Hother as [Hc' Hadv].
    pose proof (jobs_advance_length _ _ Hadv).
    split; [congruence|]. split; [congruence|]. by eapply jobs_advance_placed.
Qed.

(** X6.  After submissions that all returned, no two jobs share a file:
    the output paths differ from one another, the error paths too, and no
    output path is an error path. *)
Theorem completed_paths_are_distinct
    (n : nat) (names : list string) (st : State) (i k : nat) (j j' : Job) :
  completed qsub cluster n names st →
  jobs (self st) !! i = Some j → jobs (self st) !! k = Some j' →
  output_file j ≠ error_file j'
  ∧ (i ≠ k → output_file j ≠ output_file j' ∧ error_file j ≠ error_file j').
Proof.
  intros (_ & _ & Hp)%completed_placed. by eapply placed_paths.
Qed.

End Placing.

(** ** A cycle over jobs whose output is ready *)

Lemma outputs_distinct (js : list Job) (i k : nat) (j j' : Job) :
  NoDup (output_file <$> js) →
  js !! i = Some j → js !! k = Some j' →
  output_file j = output_file j' → i = k.
Proof.
  intros Hnd Hj Hj' E.
  apply (NoDup_lookup _ i k (output_file j) Hnd); rewrite list_lookup_fmap.
  - by rewrite Hj.
  - by rewrite Hj', E.
Qed.

Lemma collect_from_settled {L : Locale} (fs : gmap string string) (j : Job) :
  status j ≠ RUNNING → collect_from fs j = j.
Proof. intros H. unfold collect_from. by rewrite decide_False. Qed.

Lemma collect_from_delete {L : Locale} (fs : gmap string string) (path : string) (j : Job) :
  output_file j ≠ path → collect_from (delete path fs) j = collect_from fs j.
Proof. intros H. unfold collect_from. by rewrite lookup_delete_ne. Qed.

Lemma ready_delete {L : Locale} (fs : gmap string string) (path : string) (j : Job) :
  output_file j ≠ path → ready fs j → ready (delete path fs) j.
Proof.
  intros Hne (bytes & Hout & Hbytes & Htext & Herr). exists bytes.
  rewrite lookup_delete_ne by done. split; [done|]. split; [done|].
  split; [done|].
  destruct (decide (path = error_file j)) as [->|].
  - left. apply lookup_delete_eq.
  - by rewrite lookup_delete_ne.
Qed.

Lemma loop_collects {L : Locale} (n a : nat) (acc : bool) (st : State) :
  (a + n)%nat = length (jobs (self st)) →
  NoDup (output_file <$> jobs (self st)) →
  (∀ k j, (a ≤ k)%nat → jobs (self st) !! k = Some j → status j = RUNNING →
          ready (files (os st)) j) →
  ∃ st',
    check_finished_loop (seq a n) acc st = Returned acc st'
    ∧ current_index (self st') = current_index (self st)
    ∧ length (jobs (self st')) = length (jobs (self st))
    ∧ (∀ k j, jobs (self st) !! k = Some j →
         jobs (self st') !! k =
         Some (if decide (a ≤ k)%nat then collect_from (files (os st)) j else j))
    ∧ (∀ k j, (a ≤ k)%nat → jobs (self st) !! k = Some j → status j = RUNNING →
         files (os st') !! output_file j = None)
    ∧ (∀ path,
         (∀ k j, (a ≤ k)%nat → jobs (self st) !! k = Some j → status j = RUNNING →
                 output_file j ≠ path) →
         files (os st') !! path = files (os st) !! path).
Proof.
  revert a acc st. induction n as [|n IH]; intros a acc st Hlen Hnd Hready.
  { exists st. simpl. repeat split; try done.
    - intros k j Hj. rewrite Hj. apply lookup_lt_Some in Hj.
      by rewrite decide_False by lia.
    - intros k j Hk Hj. apply lookup_lt_Some in Hj. lia. }
  assert (a < length (jobs (self st)))%nat as Ha by lia.
  destruct (lookup_lt_is_Some_2 _ _ Ha) as [ja Hja].
  simpl. unfold bind.
  destruct (decide (status ja = RUNNING)) as [Hs|Hs].
  - destruct (Hready a ja ltac:(lia) Hja Hs)
      as (bytes & Hout & Hbytes & [text Htext] & Herr).
    destruct (poll_collect_eq a st ja bytes text Hja Hs Hout Hbytes Herr Htext)
      as [evs ->].
    simpl.
    set (st1 := collected a (set_status FINISHED (add_output text ja))
                  (output_file ja) evs st).
    assert (∀ k, k ≠ a → jobs (self st1) !! k = jobs (self st) !! k) as Hother.
    { intros k Hk. simpl. by rewrite list_lookup_insert_ne. }
    destruct (IH (S a) acc st1) as (st' & Hloop & Hc & Hl & Hjobs & Hgone & Hkept).
    + simpl. rewrite length_insert. lia.
    + simpl. rewrite list_fmap_insert. simpl.
      rewrite list_insert_id; [done|]. by rewrite list_lookup_fmap, Hja.
    + intros k j Hk Hj Hsj. rewrite Hother in Hj by lia. simpl.
      apply ready_delete; [|apply (Hready k j); [lia|done|done]].
      intros E. assert (k = a) by (by eapply outputs_distinct). lia.
    + exists st'. split; [done|]. split; [done|]. split.
      { rewrite Hl. simpl. by rewrite length_insert. }
      split; [|split].
      * intros k j Hj. destruct (decide (k = a)) as [->|Hka].
        -- simplify_eq. rewrite decide_True by lia.
           rewrite (Hjobs a (set_status FINISHED (add_output text ja))).
           ++ rewrite decide_False by lia. unfold collect_from.
              rewrite decide_True, Hout by done. simpl. by rewrite Htext.
           ++ simpl. by apply list_lookup_insert_eq.
        -- rewrite (Hjobs k j) by (by rewrite Hother).
           destruct (decide (S a ≤ k)%nat), (decide (a ≤ k)%nat); try lia; [|done].
           simpl. rewrite collect_from_delete; [done|].
           intros E. assert (k = a) by (by eapply outputs_distinct). lia.
      * intros k j Hk Hj Hsj. destruct (decide (k = a)) as [->|Hka].
        -- simplify_eq. rewrite Hkept; [simpl; apply lookup_delete_eq|].
           intros k j Hk' Hj _ E. rewrite Hother in Hj by lia.
           assert (k = a) by (by eapply outputs_distinct). lia.
        -- apply (Hgone k j); [lia| by rewrite Hother |done].
      * intros path Hpath. rewrite Hkept.
        -- simpl. apply lookup_delete_ne. by apply (Hpath a ja).
        -- intros k j Hk Hj Hsj. rewrite Hother in Hj by lia.
           apply (Hpath k j); [lia|done|done].
  - rewrite (poll_settled_eq a st ja Hja Hs). simpl.
    destruct (IH (S a) acc st) as (st' & Hloop & Hc & Hl & Hjobs & Hgone & Hkept);
      [lia|done|intros k j Hk Hj Hsj; apply (Hready k j); [lia|done|done]|].
    exists st'. split; [done|]. split; [done|]. split; [done|]. split; [|split].
    + intros k j Hj. rewrite (Hjobs k j Hj).
      destruct (decide (S a ≤ k)%nat), (decide (a ≤ k)%nat); try lia; try done.
      assert (k = a) as -> by lia. simplify_eq. by rewrite collect_from_settled.
    + intros k j Hk Hj Hsj. destruct (decide (k = a)) as [->|Hka]; [by simplify_eq|].
      apply (Hgone k j); [lia|done|done].
    + intros path Hpath. apply Hkept. intros k j Hk Hj Hsj.
      apply (Hpath k j); [lia|done|done].
Qed.

Section Ready.

Context {L : Locale}.

Variable cluster : World → gmap string string.

(** X9.  A tracker whose counter equals the number of its jobs, whose
    output paths are distinct, and whose every RUNNING job has a non-empty
    output file, of bytes that are text in the locale's encoding, and no
    error file but an empty one: a single cycle returns [True], every
    RUNNING job ends FINISHED with the text read from its own output file
    (the decoded bytes, line ends read as LF) appended to its captured
    output, the other jobs are as they were, exactly the output files of
    the collected jobs are gone, and [wait] returns after that cycle
    without sleeping. *)
Theorem cycle_collects_ready (st : State) :
  current_index (self st) = length (jobs (self st)) →
  NoDup (output_file <$> jobs (self st)) →
  (∀ j, j ∈ jobs (self st) → status j = RUNNING → ready (files (os st)) j) →
  ∃ st',
    check_finished_jobs st = Returned true st'
    ∧ jobs (self st') = collect_from (files (os st)) <$> jobs (self st)
    ∧ (∀ j, j ∈ jobs (self st) → status j = RUNNING →
         files (os st') !! output_file j = None)
    ∧ (∀ path,
         (∀ j, j ∈ jobs (self st) → status j = RUNNING → output_file j ≠ path) →
         files (os st') !! path = files (os st) !! path)
    ∧ ∀ fuel, wait cluster (S fuel) st = Some (Returned tt st').
Proof.
  intros Hc Hnd Hready.
  destruct (loop_collects (current_index (self st)) 0 true st)
    as (st' & Hloop & _ & Hlen & Hjobs & Hgone & Hkept); [lia|done| |].
  { intros k j _ Hj. apply Hready. by eapply list_elem_of_lookup_2. }
  assert (check_finished_jobs st = Returned true st') as Hcyc by exact Hloop.
  exists st'. split; [done|]. split; [|split; [|split]].
  - apply list_eq. intros k. rewrite list_lookup_fmap.
    destruct (jobs (self st) !! k) as [j|] eqn:Hj.
    + rewrite (Hjobs k j Hj). by destruct (decide (0 ≤ k)%nat); [|lia].
    + simpl. apply lookup_ge_None. apply lookup_ge_None in Hj. lia.
  - intros j [k Hj]%list_elem_of_lookup_1. apply (Hgone k j); [lia|done].
  - intros path Hpath. apply Hkept. intros k j _ Hj. apply Hpath.
    by eapply list_elem_of_lookup_2.
  - intros fuel. by rewrite (wait_unfold cluster fuel st st' true Hcyc).
Qed.

End Ready.

Lemma cycle_collects_ready_witness :
  ∃ st',
    check_finished_jobs (L:=ascii_locale) two_ready = Returned true st'
    ∧ jobs (self st') =
      collect_from (L:=ascii_locale) (files (os two_ready)) <$> jobs (self two_ready)
    ∧ (∀ j, j ∈ jobs (self two_ready) → status j = RUNNING →
         files (os st') !! output_file j = None)
    ∧ (∀ path,
         (∀ j, j ∈ jobs (self two_ready) → status j = RUNNING →
               output_file j ≠ path) →
         files (os st') !! path = files (os two_ready) !! path)
    ∧ ∀ fuel, wait (L:=ascii_locale) idle_cluster (S fuel) two_ready
              = Some (Returned tt st').
Proof.
  apply (cycle_collects_ready (L:=ascii_locale) idle_cluster two_ready).
  - reflexivity.
  - apply (bool_decide_unpack _). by vm_compute.
  - intros j Hj _.
    change (jobs (self two_ready)) with
      [Job_init 0 "first.sge" 12345 "output_0" "error_0";
       Job_init 1 "second.sge" 12345 "output_1" "error_1"] in Hj.
    apply elem_of_cons in Hj as [->|Hj].
    + exists "node17". split; [reflexivity|]. split; [discriminate|].
      split; [by eexists|]. left. reflexivity.
    + apply list_elem_of_singleton in Hj as ->.
      exists "node18". split; [reflexivity|]. split; [discriminate|].
      split; [by eexists|]. right. reflexivity.
Defined.

(** ** The script *)

Section Main.

Context {L : Locale}.

Variable qsub : list string → World → popen_result.
Variable cluster : World → gmap string string.

Lemma submit_loop_placed (n : nat) (names : list string) (st st' : State) :
  placed names (jobs (self st)) →
  current_index (self st) = length (jobs (self st)) →
  length names = length (jobs (self st)) →
  submit_loop qsub n st = Returned tt st' →
  current_index (self st') = length (jobs (self st'))
  ∧ length (jobs (self st')) = (length (jobs (self st)) + n)%nat
  ∧ placed (names ++ replicate n "hostname_example.sge") (jobs (self st')).
Proof.
  revert names st. induction n as [|n IH]; intros names st Hp Hc Hn; simpl.
  - intros [= <-]. rewrite app_nil_r. split; [done|]. split; [lia|done].
  - unfold bind.
    destruct (submit qsub "hostname_example.sge" st) as [job st1|] eqn:Hsub; [|done].
    destruct (submit_returned_placed qsub _ _ _ _ _ Hp Hc Hn Hsub) as (E & Hc1 & Hp1).
    intros Hloop. apply (IH (names ++ ["hostname_example.sge"])) in Hloop; try done.
    + destruct Hloop as (Hc' & Hl' & Hp'). split; [done|].
      rewrite E, length_app in Hl'. simpl in Hl'. split; [lia|].
      by rewrite <- app_assoc in Hp'.
    + rewrite E, !length_app. simpl. lia.
Qed.

(** X11.  When the script runs to its end, the tracker holds four jobs for
    hostname_example.sge, at indices 0 to 3 with the paths of those
    indices, every one of them FAILED, FINISHED or ERROR, and the last
    thing printed is the report of those four jobs with their output. *)
Theorem main_returns_with_report (fuel : nat) (st st' : State) :
  main qsub cluster fuel st = Some (Returned tt st') →
  length (jobs (self st')) = 4%nat
  ∧ current_index (self st') = 4%nat
  ∧ placed (replicate 4 "hostname_example.sge") (jobs (self st'))
  ∧ Forall terminal (jobs (self st'))
  ∧ ∃ before, trace (os st') = before ++ report true (jobs (self st')).
Proof.
  unfold main.
  change ((put_self Submitter_init ;; submit_loop qsub 4) st)
    with (submit_loop qsub 4 {| self := Submitter_init; os := os st |}).
  destruct (submit_loop qsub 4 {| self := Submitter_init; os := os st |})
    as [[] st1|] eqn:Hloop; [|done].
  apply (submit_loop_placed 4 []) in Hloop as (Hc1 & Hl1 & Hp1);
    [|by intros i j|done|done]. simpl in Hl1, Hp1.
  destruct (wait cluster fuel st1) as [[[] st2|]|] eqn:Hwait; [|done|done].
  pose proof (wait_advances cluster fuel st1 _ Hwait) as [Hc2 Hadv]. simpl in *.
  pose proof (jobs_advance_length _ _ Hadv) as Hl2.
  apply wait_returns_terminal in Hwait; [|unfold counter_ahead; lia].
  rewrite print_results_eq, decide_True by lia.
  intros [= <-]. simpl. split; [lia|]. split; [lia|].
  split; [by eapply jobs_advance_placed|]. split; [done|].
  exists (trace (os st2)). f_equal. f_equal. apply take_ge. lia.
Qed.

End Main.

Lemma main_returns_with_report_witness :
  match main (L:=ascii_locale) qsub_accepts cluster_done 2 (fresh ∅) with
  | Some (Returned _ st') =>
      length (jobs (self st')) = 4%nat
      ∧ current_index (self st') = 4%nat
      ∧ placed (replicate 4 "hostname_example.sge") (jobs (self st'))
      ∧ Forall terminal (jobs (self st'))
      ∧ ∃ before, trace (os st') = before ++ report true (jobs (self st'))
  | _ => False
  end.
Proof.
  destruct (main (L:=ascii_locale) qsub_accepts cluster_done 2 (fresh ∅))
    as [[[] st'|e st']|] eqn:E.
  - exact (main_returns_with_report (L:=ascii_locale) qsub_accepts cluster_done 2
             (fresh ∅) st' E).
  - vm_compute in E. discriminate.
  - vm_compute in E. discriminate.
Defined.

Lemma completed_paths_are_distinct_witness :
  "output_0" ≠ "error_1"
  ∧ (O ≠ 1%nat → "output_0" ≠ "output_1" ∧ "error_0" ≠ "error_1").
Proof.
  apply (completed_paths_are_distinct (L:=ascii_locale) qsub_accepts idle_cluster 2
           ([] ++ ["first.sge"] ++ ["second.sge"])
           (state_of (submit qsub_accepts "second.sge"
                        (state_of (submit qsub_accepts "first.sge" (fresh ∅)))))
           0 1
           (Job_init 0 "first.sge" 12345 "output_0" "error_0")
           (Job_init 1 "second.sge" 12345 "output_1" "error_1")).
  - eapply (completed_submit _ _ 1 ([] ++ ["first.sge"])
              (state_of (submit qsub_accepts "first.sge" (fresh ∅))));
      [|vm_compute; reflexivity].
    eapply (completed_submit _ _ 0 [] (fresh ∅)); [|vm_compute; reflexivity].
    apply completed_fresh.
  - reflexivity.
  - reflexivity.
Defined.

(** ** What a submission does to the world *)

(** X12.  Whether it returns or raises, [submit] moves the counter by one,
    runs the command exactly once, with the paths named after the counter
    as it stood, and leaves every file and every job already in the list
    as they were; it adds one job, at the end, exactly when it returns,
    and that job carries the counter as it stood as its index. *)
Theorem submit_runs_the_command_once
    (qsub : list string → World → popen_result) (name : string) (st : State) :
  let st' := state_of (submit qsub name st) in
  current_index (self st') = S (current_index (self st))
  ∧ files (os st') = files (os st)
  ∧ (∃ notices,
       trace (os st') =
       trace (os st)
       ++ EvSpawn (submission_argv name (current_index (self st))) :: notices
       ∧ Forall (λ e, ∃ line, e = EvPrint line) notices)
  ∧ match submit qsub name st with
    | Returned job _ =>
        jobs (self st') = jobs (self st) ++ [job]
        ∧ index job = current_index (self st)
        ∧ sge_script job = name
    | Raised _ _ => jobs (self st') = jobs (self st)
    end.
Proof.
  rewrite submit_eq. destruct (reply qsub name st) as [|out]; simpl.
  - split; [lia|]. split; [done|]. split; [|done]. exists []. by split.
  - destruct (parsed_job_id out) as [id|]; simpl.
    + split; [lia|]. split; [done|]. split; [|done].
      eexists [_]. split; [done|]. repeat constructor. eauto.
    + split; [lia|]. split; [done|]. split; [|done]. exists []. by split.
Qed.
